(** * Simpledashboard: the statistics kernel of [simple_dashboard.py]

    A shallow embedding of [perform_analysis] (filter by material, skewness,
    IQR outlier trimming, median) and of the combination and ranking loop
    that follows it, with the properties the specification states about
    them.

    Conventions of the embedding.
    - A numeric cell is a [float64]: [Some q] for a finite number, read as
      the exact rational [q], and [None] for NaN, which is also the marker
      pandas uses for a missing cell.  Rounding, overflow and the two
      infinities are outside the model.
    - Text is a [string] of 7-bit characters; case folding is A-Z to a-z.
      A description cell is [None] when it is missing or holds no text;
      the description column is taken to have pandas' object dtype, as it
      has once a row holds text (on a column read as all numeric the
      [.str] accessor itself raises, which is not modelled).
    - Calls into pandas, numpy, scipy and [re] are embedded by what those
      libraries do on the call as written (defaults included); each
      definition names the call it stands for. *)

From Stdlib Require Import Ascii String QArith Qround Permutation Sorted Lqa.
From stdpp Require Import gmap strings list.

Local Open Scope Q_scope.

(** ** Numeric cells *)

Definition float64 : Type := option Q.

Definition NaN : float64 := None.

(** Arithmetic propagates NaN; every comparison with NaN is false. *)
Definition fadd (a b : float64) : float64 :=
  match a, b with Some x, Some y => Some (x + y) | _, _ => NaN end.

Definition fsub (a b : float64) : float64 :=
  match a, b with Some x, Some y => Some (x - y) | _, _ => NaN end.

Definition fmul (a b : float64) : float64 :=
  match a, b with Some x, Some y => Some (x * y) | _, _ => NaN end.

Definition fle (a b : float64) : bool :=
  match a, b with Some x, Some y => Qle_bool x y | _, _ => false end.

Definition fge (a b : float64) : bool := fle b a.

Definition isna (a : float64) : bool :=
  match a with Some _ => false | None => true end.

(** Two cells hold the same value: both NaN, or equal numbers. *)
Definition feq (a b : float64) : Prop :=
  match a, b with
  | Some x, Some y => x == y
  | None, None => True
  | _, _ => False
  end.

(** [Series.dropna()]. *)
Fixpoint dropna (s : list float64) : list Q :=
  match s with
  | [] => []
  | Some v :: t => v :: dropna t
  | None :: t => dropna t
  end.

(** ** Order statistics *)

Fixpoint insert_sorted (x : Q) (l : list Q) : list Q :=
  match l with
  | [] => [x]
  | y :: t => if Qle_bool x y then x :: l else y :: insert_sorted x t
  end.

(** The values in ascending order, as [np.percentile] and the median see
    them. *)
Definition np_sort (l : list Q) : list Q := fold_right insert_sorted [] l.

(** numpy's [_lerp]: [a + (b - a) * t], computed from [b] when [t >= 0.5]. *)
Definition lerp (a b t : Q) : Q :=
  if Qle_bool (1 # 2) t then b - (b - a) * (1 - t) else a + (b - a) * t.

(** [np.percentile(values, 100 * q, method="linear")] on sorted, non-empty
    [vs]: the virtual index is [(n - 1) * q]. *)
Definition percentile_linear (vs : list Q) (d : Q) (q : Q) : Q :=
  let last := (Z.of_nat (length vs) - 1)%Z in
  let pos := inject_Z last * q in
  let lo := Qfloor pos in
  let hi := Z.min (lo + 1) last in
  lerp (nth (Z.to_nat lo) vs d) (nth (Z.to_nat hi) vs d) (pos - inject_Z lo).

(** [Series.quantile(q)]: NaN cells are skipped; no value left gives NaN. *)
Definition quantile (s : list float64) (q : Q) : float64 :=
  match np_sort (dropna s) with
  | [] => NaN
  | (d :: _) as vs => Some (percentile_linear vs d q)
  end.

(** [Series.median()]: NaN cells are skipped; the middle value, or the mean
    of the two middle values; NaN for an empty series. *)
Definition median (s : list float64) : float64 :=
  match np_sort (dropna s) with
  | [] => NaN
  | (d :: _) as vs =>
      let n := length vs in
      if Nat.even n
      then Some ((nth (n / 2 - 1) vs d + nth (n / 2) vs d) / 2)
      else Some (nth (n / 2) vs d)
  end.

(** ** Skewness *)

(** The value [scipy.stats.skew] returns.  The sample skewness
    [m3 / m2^(3/2)] is in general irrational, so a number is kept as the
    pair of central moments it is the quotient of. *)
Inductive skewness : Type :=
| SkewNaN
| SkewRatio (m3 m2 : Q).

Definition Qsum (l : list Q) : Q := fold_right Qplus 0 l.

Definition np_mean (l : list Q) : Q := Qsum l / inject_Z (Z.of_nat (length l)).

(** scipy's [_moment(a, k, mean=mean)]. *)
Definition moment (k : positive) (a : list Q) (mean : Q) : Q :=
  np_mean (List.map (fun x => Qpower_positive (x - mean) k) a).

(** [np.finfo(np.float64).resolution]. *)
Definition resolution : Q := 1 # 1000000000000000.

(** [scipy.stats.skew(a)] with its defaults ([bias=True]): the biased
    estimator [m3 / m2^1.5], and NaN where the data is constant up to the
    resolution of the type ([m2 <= (resolution * mean)^2]) or empty (the
    mean of no value is NaN, and so is all that follows).  This is SciPy
    as it answers NaN on constant data; older releases answered 0 there,
    and newer ones compare against the type's [eps] in place of its
    [resolution]. *)
Definition skew (a : list Q) : skewness :=
  match a with
  | [] => SkewNaN
  | _ =>
      let mean := np_mean a in
      let m2 := moment 2 a mean in
      let m3 := moment 3 a mean in
      if Qle_bool m2 (Qpower_positive (resolution * mean) 2)
      then SkewNaN
      else SkewRatio m3 m2
  end.

(** ** Text and regular expressions *)

Local Open Scope char_scope.

(** Case folding of [re.IGNORECASE] on 7-bit text. *)
Definition lower (c : ascii) : ascii :=
  let n := nat_of_ascii c in
  if Nat.leb 65 n && Nat.leb n 90 then ascii_of_nat (n + 32) else c.

Definition eqb_ic (c d : ascii) : bool := Ascii.eqb (lower c) (lower d).

(** The characters [re] gives a meaning of their own. *)
Definition special_chars : list ascii :=
  ["."; "^"; "$"; "*"; "+"; "?"; "{"; "}"; "["; "]"; "092"; "|"; "("; ")"].

Definition is_special (c : ascii) : bool :=
  existsb (Ascii.eqb c) special_chars.

Fixpoint no_special (s : string) : bool :=
  match s with
  | EmptyString => true
  | String c s' => negb (is_special c) && no_special s'
  end.

(** The patterns the model reads: literals, [.], grouping, alternation and
    the quantifiers [*], [+], [?] (greedy or lazy: the two match the same
    strings).  [Void] matches nothing and only arises in derivatives. *)
Inductive regex : Type :=
| Void
| Eps
| Chr (c : ascii)
| AnyChar
| Cat (r s : regex)
| Alt (r s : regex)
| Star (r : regex).

(** What [re.compile] makes of a pattern: a compiled pattern, the
    [re.error] it raises, or a pattern outside the fragment (sets, escapes,
    anchors, counted and possessive repeats, [(?...)] groups), about which
    the model says nothing. *)
Inductive compiled : Type :=
| Pattern (r : regex)
| ReError (msg : string)
| Unsupported.

(** The last item of the sequence being read: plain, just repeated (a [?]
    may still follow and makes the repeat lazy), or repeated for good. *)
Inductive item_kind : Type := Plain | RepeatOpen | RepeatDone.

Definition item : Type := (regex * item_kind)%type.

(** Items are kept last first. *)
Definition seq_regex (items : list item) : regex :=
  fold_left (fun acc it => Cat (fst it) acc) items Eps.

(** Finished branches are kept last first too. *)
Definition close_group (alts : list regex) (items : list item) : regex :=
  fold_left (fun acc b => Alt b acc) alts (seq_regex items).

Definition quantify (c : ascii) (r : regex) : regex :=
  if Ascii.eqb c "*" then Star r
  else if Ascii.eqb c "+" then Cat r (Star r)
  else Alt r Eps.

(** [sre_parse.parse], read left to right in one pass: [stack] holds the
    enclosing groups, [alts] the finished branches of the current group,
    [items] the sequence being read. *)
Fixpoint sre_parse (src : string) (stack : list (list regex * list item))
    (alts : list regex) (items : list item) : compiled :=
  match src with
  | EmptyString =>
      match stack with
      | [] => Pattern (close_group alts items)
      | _ :: _ => ReError "missing ), unterminated subpattern"
      end
  | String c rest =>
      if Ascii.eqb c "(" then
        match rest with
        | String "?" _ => Unsupported
        | _ => sre_parse rest ((alts, items) :: stack) [] []
        end
      else if Ascii.eqb c ")" then
        match stack with
        | [] => ReError "unbalanced parenthesis"
        | (alts', items') :: stack' =>
            sre_parse rest stack' alts' ((close_group alts items, Plain) :: items')
        end
      else if Ascii.eqb c "|" then
        sre_parse rest stack (seq_regex items :: alts) []
      else if Ascii.eqb c "*" || Ascii.eqb c "+" || Ascii.eqb c "?" then
        match items with
        | [] => ReError "nothing to repeat"
        | (r, Plain) :: items' =>
            sre_parse rest stack alts ((quantify c r, RepeatOpen) :: items')
        | (r, RepeatOpen) :: items' =>
            if Ascii.eqb c "?" then sre_parse rest stack alts ((r, RepeatDone) :: items')
            else if Ascii.eqb c "+" then Unsupported
            else ReError "multiple repeat"
        | (_, RepeatDone) :: _ => ReError "multiple repeat"
        end
      else if Ascii.eqb c "." then
        sre_parse rest stack alts ((AnyChar, Plain) :: items)
      else if is_special c then Unsupported
      else sre_parse rest stack alts ((Chr c, Plain) :: items)
  end.

Definition re_compile (pat : string) : compiled := sre_parse pat [] [] [].

Fixpoint nullable (r : regex) : bool :=
  match r with
  | Void | Chr _ | AnyChar => false
  | Eps | Star _ => true
  | Cat r s => nullable r && nullable s
  | Alt r s => nullable r || nullable s
  end.

(** The pattern left after reading [c], under [re.IGNORECASE] and without
    [re.DOTALL] ([.] does not match a newline). *)
Fixpoint deriv (c : ascii) (r : regex) : regex :=
  match r with
  | Void | Eps => Void
  | Chr d => if eqb_ic c d then Eps else Void
  | AnyChar => if Ascii.eqb c "010" then Void else Eps
  | Cat r s =>
      if nullable r then Alt (Cat (deriv c r) s) (deriv c s)
      else Cat (deriv c r) s
  | Alt r s => Alt (deriv c r) (deriv c s)
  | Star r => Cat (deriv c r) (Star r)
  end.

(** [pattern.match(s) is not None]: some prefix of [s] matches. *)
Fixpoint re_match (r : regex) (s : string) : bool :=
  nullable r ||
  match s with
  | EmptyString => false
  | String c s' => re_match (deriv c r) s'
  end.

(** [pattern.search(s) is not None]: a match starts somewhere in [s]. *)
Fixpoint re_search (r : regex) (s : string) : bool :=
  re_match r s ||
  match s with
  | EmptyString => false
  | String _ s' => re_search r s'
  end.

(** The strings a pattern matches in full, under [re.IGNORECASE]. *)
Inductive in_lang : regex -> string -> Prop :=
| lang_eps : in_lang Eps EmptyString
| lang_chr c d : eqb_ic d c = true -> in_lang (Chr c) (String d EmptyString)
| lang_any d : Ascii.eqb d "010" = false -> in_lang AnyChar (String d EmptyString)
| lang_cat r1 r2 s1 s2 :
    in_lang r1 s1 -> in_lang r2 s2 -> in_lang (Cat r1 r2) (String.append s1 s2)
| lang_alt_l r1 r2 s : in_lang r1 s -> in_lang (Alt r1 r2) s
| lang_alt_r r1 r2 s : in_lang r2 s -> in_lang (Alt r1 r2) s
| lang_star_nil r : in_lang (Star r) EmptyString
| lang_star_more r s1 s2 :
    in_lang r s1 -> in_lang (Star r) s2 -> in_lang (Star r) (String.append s1 s2).

Local Close Scope char_scope.

(** ** Outcomes *)

Inductive exn : Type :=
| re_error (msg : string).

(** A call returns, raises, or leaves the model (its pattern is outside
    the fragment of [re] read above). *)
Inductive outcome (A : Type) : Type :=
| Ret (a : A)
| Raise (e : exn)
| Unmodelled.

Arguments Ret {A} a.
Arguments Raise {A} e.
Arguments Unmodelled {A}.

(** [col.str.contains(pat, case=False, na=False)]: [pat] is compiled as a
    regular expression ([regex=True] is the default) before any cell is
    looked at; a cell that is missing or not text gives [False]. *)
Definition str_contains (col : list (option string)) (pat : string)
    : outcome (list bool) :=
  match re_compile pat with
  | Pattern r =>
      Ret (List.map (fun x => match x with
                              | Some s => re_search r s
                              | None => false
                              end) col)
  | ReError msg => Raise (re_error msg)
  | Unsupported => Unmodelled
  end.

(** [df[mask]]: the rows whose mask entry is [True], in order, as a new
    frame. *)
Fixpoint getitem_mask {A : Type} (df : list A) (mask : list bool) : list A :=
  match df, mask with
  | x :: df', b :: mask' =>
      if b then x :: getitem_mask df' mask' else getitem_mask df' mask'
  | _, _ => []
  end.

(** ** The data and [perform_analysis] *)

(** A row of the uploaded sheet, with the three columns the program reads. *)
Record record : Type := {
  Material_description : option string;
  Embodied_Energy : float64;
  Embodied_Carbon : float64
}.

Definition DataFrame : Type := list record.

(** The dictionary [perform_analysis] returns. *)
Record analysis : Type := {
  skew_ee : skewness;
  skew_ec : skewness;
  median_ee : float64;
  median_ec : float64;
  data : DataFrame
}.

Definition one_and_half : float64 := Some (3 # 2).

(** [col[(col >= lo) & (col <= hi)]]. *)
Definition between (col : list float64) (lo hi : float64) : list float64 :=
  getitem_mask col (List.map (fun v => fge v lo && fle v hi) col).

Definition perform_analysis (df : DataFrame) (material : string)
    : outcome (option analysis) :=
  match str_contains (List.map Material_description df) material with
  | Raise e => Raise e
  | Unmodelled => Unmodelled
  | Ret mask =>
      let mat_df := getitem_mask df mask in
      match mat_df with
      | [] => Ret None
      | _ :: _ =>
          let ee := List.map Embodied_Energy mat_df in
          let ec := List.map Embodied_Carbon mat_df in
          let ee_skew := skew (dropna ee) in
          let ec_skew := skew (dropna ec) in
          let Q1_ee := quantile ee (1 # 4) in
          let Q3_ee := quantile ee (3 # 4) in
          let IQR_ee := fsub Q3_ee Q1_ee in
          let ee_clean :=
            between ee (fsub Q1_ee (fmul one_and_half IQR_ee))
                       (fadd Q3_ee (fmul one_and_half IQR_ee)) in
          let Q1_ec := quantile ec (1 # 4) in
          let Q3_ec := quantile ec (3 # 4) in
          let IQR_ec := fsub Q3_ec Q1_ec in
          let ec_clean :=
            between ec (fsub Q1_ec (fmul one_and_half IQR_ec))
                       (fadd Q3_ec (fmul one_and_half IQR_ec)) in
          Ret (Some {| skew_ee := ee_skew;
                       skew_ec := ec_skew;
                       median_ee := median ee_clean;
                       median_ec := median ec_clean;
                       data := mat_df |})
      end
  end.

(** The filtering step on its own: [df[df["Material description"].str
    .contains(material, case=False, na=False)]]. *)
Definition filter_material (df : DataFrame) (material : string)
    : outcome DataFrame :=
  match str_contains (List.map Material_description df) material with
  | Ret mask => Ret (getitem_mask df mask)
  | Raise e => Raise e
  | Unmodelled => Unmodelled
  end.

(** The outlier removal and the median of one column, as the body of
    [perform_analysis] writes them out for each of the two metrics. *)
Definition iqr_clean (col : list float64) : list float64 :=
  let Q1 := quantile col (1 # 4) in
  let Q3 := quantile col (3 # 4) in
  let IQR := fsub Q3 Q1 in
  between col (fsub Q1 (fmul one_and_half IQR)) (fadd Q3 (fmul one_and_half IQR)).

Definition trimmed_median (col : list float64) : float64 :=
  median (iqr_clean col).

(** ** The specification's reading, for comparison *)

(** Literal containment without regard to case. *)
Fixpoint prefix_ic (p s : string) : bool :=
  match p, s with
  | EmptyString, _ => true
  | String a p', String b s' => eqb_ic b a && prefix_ic p' s'
  | String _ _, EmptyString => false
  end.

Fixpoint icontains (p s : string) : bool :=
  prefix_ic p s ||
  match s with
  | EmptyString => false
  | String _ s' => icontains p s'
  end.

(** The records whose description contains [material] as a substring,
    case ignored; a missing description does not match. *)
Definition spec_filter (df : DataFrame) (material : string) : DataFrame :=
  List.filter (fun r => match Material_description r with
                        | Some s => icontains material s
                        | None => false
                        end) df.

(** The [p]-th percentile by linear interpolation between order
    statistics: with [h = (n - 1) * p] and [k] its integer part, the value
    is [x_k + (h - k) * (x_(k+1) - x_k)]. *)
Definition spec_percentile (vs : list Q) (p : Q) : float64 :=
  match np_sort vs with
  | [] => NaN
  | (d :: _) as xs =>
      let h := inject_Z (Z.of_nat (List.length xs) - 1) * p in
      let k := Z.to_nat (Qfloor h) in
      let x_k := nth k xs d in
      let x_k1 := nth (S k) xs x_k in
      Some (x_k + (h - inject_Z (Qfloor h)) * (x_k1 - x_k))
  end.

(** The values the specification retains: those [v] among the non-null
    values with [Q1 - 1.5 * IQR <= v <= Q3 + 1.5 * IQR]. *)
Definition spec_retained (col : list float64) : list Q :=
  let vs := dropna col in
  match spec_percentile vs (1 # 4), spec_percentile vs (3 # 4) with
  | Some q1, Some q3 =>
      let iqr := q3 - q1 in
      List.filter (fun v => Qle_bool (q1 - (3 # 2) * iqr) v
                            && Qle_bool v (q3 + (3 # 2) * iqr)) vs
  | _, _ => []
  end.

(** The specification's trimmed median: the 50th percentile of the
    retained values. *)
Definition spec_trimmed_median (col : list float64) : float64 :=
  spec_percentile (spec_retained col) (1 # 2).

(** ** Combining primary and secondary materials *)

(** A row of [combined]. *)
Record row : Type := {
  Primary : string;
  Secondary : string;
  Combined_EE : float64;
  Combined_EC : float64
}.

(** Python's truth value of [mapping.get(primary)]: [None] and the empty
    string are false. *)
Definition truthy (secondary : option string) : option string :=
  match secondary with
  | Some EmptyString => None
  | other => other
  end.

(** One turn of the loop over [primary_materials]. *)
Definition combine_step (mapping : gmap string string)
    (analysis_results : gmap string analysis)
    (combined : list row) (primary : string) : list row :=
  let secondary := mapping !! primary in
  match analysis_results !! primary with
  | Some primary_res =>
      let sec_res := truthy secondary ≫= (fun s => analysis_results !! s) in
      let combined_ee :=
        match sec_res with
        | Some sec_res => fadd (median_ee primary_res) (median_ee sec_res)
        | None => median_ee primary_res
        end in
      let combined_ec :=
        match sec_res with
        | Some sec_res => fadd (median_ec primary_res) (median_ec sec_res)
        | None => median_ec primary_res
        end in
      combined ++ [ {| Primary := primary;
                       Secondary := default "None"%string (truthy secondary);
                       Combined_EE := combined_ee;
                       Combined_EC := combined_ec |} ]
  | None => combined
  end.

Definition combine (primary_materials : list string)
    (mapping : gmap string string) (analysis_results : gmap string analysis)
    : list row :=
  fold_left (combine_step mapping analysis_results) primary_materials [].

(** ** Sorting the comparison table *)

Inductive metric : Type := EE | EC.

(** The column [sort_values] is given: ["Combined EE"] or ["Combined EC"]. *)
Definition column (m : metric) (r : row) : float64 :=
  match m with EE => Combined_EE r | EC => Combined_EC r end.

(** What [np.argsort(xs, kind="quicksort")] may return: the indices of
    [xs], each once, in an order that lists the values ascending.  The call
    leaves [kind] at its default, which numpy and pandas document as not
    stable, so nothing more is known of the order of equal values. *)
Definition is_argsort (xs : list Q) (order : list nat) : Prop :=
  Permutation order (seq 0 (List.length xs)) /\
  Sorted Qle (List.map (fun i => nth i xs 0) order).

(** The positions of the cells that hold a number, and of those that hold
    NaN, each in ascending order. *)
Definition non_nan_idx (items : list float64) : list nat :=
  getitem_mask (seq 0 (List.length items))
               (List.map (fun v => negb (isna v)) items).

Definition nan_idx (items : list float64) : list nat :=
  getitem_mask (seq 0 (List.length items)) (List.map isna items).

(** pandas' [nargsort] with [ascending=True, na_position="last"]: the rows
    without NaN in the order [argsort] gives for their values, then the
    rows with NaN in the order they stand in. *)
Definition nargsort (order : list nat) (items : list float64) : list nat :=
  List.map (fun i => nth i (non_nan_idx items) O) order ++ nan_idx items.

(** [df.take(indexer)]. *)
Definition take (df : list row) (indexer : list nat) : list row :=
  omap (fun i => df !! i) indexer.

(** [df_combined.sort_values(by)], where [order] is what the argsort inside
    returned; the result is a new frame. *)
Definition sort_values (order : list nat) (m : metric) (df : list row) : list row :=
  take df (nargsort order (List.map (column m) df)).

(** The rows whose value in the column is the number [v]. *)
Definition rows_with (m : metric) (v : Q) (df : list row) : list row :=
  List.filter (fun r => match column m r with
                        | Some x => Qeq_bool x v
                        | None => false
                        end) df.

(** Rows with the same value keep the order they had. *)
Definition stable (m : metric) (df out : list row) : Prop :=
  forall v : Q, rows_with m v out = rows_with m v df.

(** ** Frames as objects *)

(** The frames alive in the interpreter, by address. *)
Definition loc : Type := nat.

Definition alloc (σ : gmap loc DataFrame) (d : DataFrame) : loc * gmap loc DataFrame :=
  let l := fresh (dom σ) in (l, <[l := d]> σ).

(** [perform_analysis(df, material)] on frame objects: [df] is read, the
    boolean indexing builds [mat_df] as a new object, and the dictionary
    returned refers to that object under ["data"]. *)
Definition perform_analysis_obj (σ : gmap loc DataFrame) (df : loc)
    (material : string)
    : outcome (option (analysis * loc)) * gmap loc DataFrame :=
  match σ !! df with
  | None => (Unmodelled, σ)
  | Some d =>
      match filter_material d material with
      | Raise e => (Raise e, σ)
      | Unmodelled => (Unmodelled, σ)
      | Ret mat =>
          let (mat_df, σ') := alloc σ mat in
          match perform_analysis d material with
          | Ret (Some result) => (Ret (Some (result, mat_df)), σ')
          | Ret None => (Ret None, σ')
          | Raise e => (Raise e, σ')
          | Unmodelled => (Unmodelled, σ')
          end
      end
  end.

(** The dictionary an object-level outcome carries. *)
Definition result_of (r : outcome (option (analysis * loc)))
    : outcome (option analysis) :=
  match r with
  | Ret (Some (s, _)) => Ret (Some s)
  | Ret None => Ret None
  | Raise e => Raise e
  | Unmodelled => Unmodelled
  end.

(** ** Vocabulary of the statements *)

(** The dictionary built from a non-empty matched subset. *)
Definition summary_of (mat_df : DataFrame) : analysis :=
  {| skew_ee := skew (dropna (List.map Embodied_Energy mat_df));
     skew_ec := skew (dropna (List.map Embodied_Carbon mat_df));
     median_ee := trimmed_median (List.map Embodied_Energy mat_df);
     median_ec := trimmed_median (List.map Embodied_Carbon mat_df);
     data := mat_df |}.

(** The pattern that reads [p] character by character, then [acc]. *)
Fixpoint literal_onto (p : string) (acc : regex) : regex :=
  match p with
  | EmptyString => acc
  | String c p' => Cat (Chr c) (literal_onto p' acc)
  end.

Definition literal (p : string) : regex := literal_onto p Eps.

Fixpoint push_literal (p : string) (items : list item) : list item :=
  match p with
  | EmptyString => items
  | String c p' => push_literal p' ((Chr c, Plain) :: items)
  end.

(** What [skew] gives on fewer than three values: NaN on none or one; on
    two, NaN exactly when they differ by no more than the resolution
    allows, and otherwise the number zero (a zero third moment over a
    positive second moment). *)
Definition small_sample_skew (vs : list Q) (g : skewness) : Prop :=
  match vs with
  | [] | [_] => g = SkewNaN
  | [x; y] =>
      (g = SkewNaN <->
       (x - y) * (x - y) <= (resolution * (x + y)) * (resolution * (x + y))) /\
      (g = SkewNaN \/ exists m3 m2, g = SkewRatio m3 m2 /\ m3 == 0 /\ 0 < m2)
  | _ => True
  end.

(** What a row of [combined] holds, given the primary's dictionary. *)
Definition row_ok (mapping : gmap string string)
    (results : gmap string analysis) (r : row) : Prop :=
  exists primary_res, results !! Primary r = Some primary_res /\
    match truthy (mapping !! Primary r) with
    | Some secondary =>
        Secondary r = secondary /\
        match results !! secondary with
        | Some sec_res =>
            Combined_EE r = fadd (median_ee primary_res) (median_ee sec_res) /\
            Combined_EC r = fadd (median_ec primary_res) (median_ec sec_res)
        | None =>
            Combined_EE r = median_ee primary_res /\
            Combined_EC r = median_ec primary_res
        end
    | None =>
        Secondary r = "None"%string /\
        Combined_EE r = median_ee primary_res /\
        Combined_EC r = median_ec primary_res
    end.

(** The rows whose value in the column is a number, and those where it is
    NaN, in the order they stand in. *)
Definition valued (m : metric) (df : list row) : list row :=
  List.filter (fun r => negb (isna (column m r))) df.

Definition unvalued (m : metric) (df : list row) : list row :=
  List.filter (fun r => isna (column m r)) df.

(** ** Sample data *)

Definition tile (ee ec : float64) : record :=
  {| Material_description := Some "Vitrified Tile"%string;
     Embodied_Energy := ee;
     Embodied_Carbon := ec |}.

(** Six tiles with the Embodied Energy values of the specification's
    example and no Embodied Carbon value. *)
Definition tiles : DataFrame :=
  List.map (fun v => tile (Some v) NaN) [10; 12; 11; 13; 9; 1000].

(** Two tiles. *)
Definition two_tiles : DataFrame := [tile (Some 10) (Some 1); tile (Some 12) NaN].

(** A sheet whose last row has no description. *)
Definition sheet : DataFrame :=
  [ tile (Some 10) (Some 1);
    {| Material_description := Some "Granite slab"%string;
       Embodied_Energy := Some 20; Embodied_Carbon := Some 2 |};
    {| Material_description := None;
       Embodied_Energy := Some 30; Embodied_Carbon := Some 3 |} ].

(** A name with parentheses in it. *)
Definition glazed : DataFrame :=
  [ {| Material_description := Some "Ceramic tile (glazed)"%string;
       Embodied_Energy := Some 7; Embodied_Carbon := Some 1 |} ].

Definition marble_res : analysis :=
  {| skew_ee := SkewNaN; skew_ec := SkewNaN;
     median_ee := Some 50; median_ec := Some 4; data := [tile (Some 50) (Some 4)] |}.

Definition grout_res : analysis :=
  {| skew_ee := SkewNaN; skew_ec := SkewNaN;
     median_ee := Some 5; median_ec := Some 1; data := [tile (Some 5) (Some 1)] |}.

Definition comparison (p : string) (ee ec : float64) : row :=
  {| Primary := p; Secondary := "None"; Combined_EE := ee; Combined_EC := ec |}.

Definition table : list row :=
  [ comparison "granite" (Some 30) (Some 2);
    comparison "screed" NaN (Some 1);
    comparison "marble" (Some 10) (Some 2) ].

Definition ties : list row :=
  [ comparison "granite" (Some 5) (Some 1);
    comparison "marble" (Some 5) (Some 2) ].

(** ** The material names the page collects *)

Local Open Scope char_scope.

(** The characters [str.strip()] removes: Python's whitespace among the
    7-bit characters (tab to carriage return, the four separators 28 to 31
    and the space). *)
Definition isspace (c : ascii) : bool :=
  let n := nat_of_ascii c in
  (Nat.leb 9 n && Nat.leb n 13) || (Nat.leb 28 n && Nat.leb n 32).

Fixpoint lstrip (s : string) : string :=
  match s with
  | EmptyString => EmptyString
  | String c s' => if isspace c then lstrip s' else s
  end.

Fixpoint rstrip (s : string) : string :=
  match s with
  | EmptyString => EmptyString
  | String c s' =>
      match rstrip s' with
      | EmptyString => if isspace c then EmptyString else String c EmptyString
      | r => String c r
      end
  end.

(** [m.strip()]. *)
Definition strip (m : string) : string := rstrip (lstrip m).

(** [s.split(",")]: the pieces between the commas, of which there is always
    at least one. *)
Fixpoint split_comma (s : string) : list string :=
  match s with
  | EmptyString => [EmptyString]
  | String c s' =>
      if Ascii.eqb c "," then EmptyString :: split_comma s'
      else match split_comma s' with
           | h :: t => String c h :: t
           | [] => [String c EmptyString]
           end
  end.

(** Python's truth value of a string. *)
Definition nonempty (s : string) : bool :=
  match s with EmptyString => false | String _ _ => true end.

(** [[m.strip() for m in primary_input.split(",") if m.strip()]]. *)
Definition parse_primary_input (primary_input : string) : list string :=
  List.map strip (List.filter (fun m => nonempty (strip m)) (split_comma primary_input)).

Fixpoint has_comma (s : string) : bool :=
  match s with
  | EmptyString => false
  | String c s' => Ascii.eqb c "," || has_comma s'
  end.

Local Close Scope char_scope.

(** The value the page puts in the primary materials box. *)
Definition default_primary_input : string :=
  "vitrified, vitrified 20mm, granite, marble, terrazzo, engineered wood, grout, epoxy grout, adhesive, mortar, screed sheets".

(** One turn of the loop over the three secondary material rows:
    [if sec_name: secondary_materials[sec_name] = sec_purpose]. *)
Definition secondary_step (secondary_materials : gmap string string)
    (entry : string * string) : gmap string string :=
  let (sec_name, sec_purpose) := entry in
  if nonempty sec_name then <[sec_name := sec_purpose]> secondary_materials
  else secondary_materials.

(** [secondary_materials] after the loop, from the name and purpose typed
    in each row (the page has three rows). *)
Definition collect_secondary (entries : list (string * string))
    : gmap string string :=
  fold_left secondary_step entries ∅.

(** The keys the page gives its own widgets; Streamlit raises when a key
    is used twice in a run, and the selection boxes below are keyed by the
    primary names. *)
Definition widget_keys : list string :=
  ["sec_name_1"; "sec_purpose_1"; "sec_name_2"; "sec_purpose_2";
   "sec_name_3"; "sec_purpose_3"]%string.

(** [mapping] after step 3: empty when no secondary material is defined,
    and otherwise each primary mapped to what its selection box returns;
    [selectbox primary] stands for the value of
    [st.selectbox(..., list(secondary_materials.keys()), key=primary)]. *)
Definition build_mapping (selectbox : string -> string)
    (primary_materials : list string)
    (secondary_materials : gmap string string) : gmap string string :=
  if decide (secondary_materials = ∅) then ∅
  else fold_left (fun mapping primary => <[primary := selectbox primary]> mapping)
                 primary_materials ∅.

(** One turn of the loop over [all_materials]; the calls that only draw
    on the page are left out. *)
Definition analysis_step (df : DataFrame)
    (acc : outcome (gmap string analysis)) (material : string)
    : outcome (gmap string analysis) :=
  match acc with
  | Ret analysis_results =>
      match perform_analysis df material with
      | Ret (Some result) => Ret (<[material := result]> analysis_results)
      | Ret None => Ret analysis_results
      | Raise e => Raise e
      | Unmodelled => Unmodelled
      end
  | Raise e => Raise e
  | Unmodelled => Unmodelled
  end.

(** [analysis_results] after the loop; [all_materials] is the list made of
    the set of primary and secondary names, in the order the set gives. *)
Definition analyse_all (df : DataFrame) (all_materials : list string)
    : outcome (gmap string analysis) :=
  fold_left (analysis_step df) all_materials (Ret ∅).

(** What the "Analyze Data" button computes: the dictionaries, then the
    comparison rows. *)
Definition analyze_data (df : DataFrame) (primary_materials : list string)
    (mapping : gmap string string) (all_materials : list string)
    : outcome (list row) :=
  match analyse_all df all_materials with
  | Ret analysis_results => Ret (combine primary_materials mapping analysis_results)
  | Raise e => Raise e
  | Unmodelled => Unmodelled
  end.

(** What a row of the comparison says about the sheet: the primary
    selected records, and the row holds its medians, with those of the
    mapped secondary added when that one selected records too. *)
Definition row_from_sheet (df : DataFrame) (mapping : gmap string string)
    (r : row) : Prop :=
  exists s, perform_analysis df (Primary r) = Ret (Some s) /\
    match truthy (mapping !! Primary r) with
    | Some secondary =>
        Secondary r = secondary /\
        exists o, perform_analysis df secondary = Ret o /\
          Combined_EE r = match o with
                          | Some t => fadd (median_ee s) (median_ee t)
                          | None => median_ee s
                          end /\
          Combined_EC r = match o with
                          | Some t => fadd (median_ec s) (median_ec t)
                          | None => median_ec s
                          end
    | None =>
        Secondary r = "None"%string /\
        Combined_EE r = median_ee s /\ Combined_EC r = median_ec s
    end.

(** The purpose typed in the last row that names [k]. *)
Fixpoint last_purpose (k : string) (entries : list (string * string))
    : option string :=
  match entries with
  | [] => None
  | (n, p) :: rest =>
      match last_purpose k rest with
      | Some q => Some q
      | None => if decide (n = k) then Some p else None
      end
  end.

(** The dictionary the loop stores for a material: the one
    [perform_analysis] returns, if it returns one. *)
Definition stored (df : DataFrame) (material : string) : option analysis :=
  match perform_analysis df material with
  | Ret (Some result) => Some result
  | _ => None
  end.

(** [perform_analysis] returns, with a dictionary or with [None]. *)
Definition returns (df : DataFrame) (material : string) : Prop :=
  exists o, perform_analysis df material = Ret o.

(** Two names that differ by case only. *)
Fixpoint eq_ic (p q : string) : bool :=
  match p, q with
  | EmptyString, EmptyString => true
  | String a p', String b q' => eqb_ic a b && eq_ic p' q'
  | _, _ => false
  end.

(** What can be said of a representative value [m] of a column: it lies
    between two values of the column, and inside the window the trimming
    keeps. *)
Definition inside_data_and_window (col : list float64) (m : Q) : Prop :=
  (exists a b, In (Some a) col /\ In (Some b) col /\ a <= m /\ m <= b) /\
  exists q1 q3,
    quantile col (1 # 4) = Some q1 /\ quantile col (3 # 4) = Some q3 /\
    q1 - (3 # 2) * (q3 - q1) <= m /\ m <= q3 + (3 # 2) * (q3 - q1).

(** No two of the values are equal. *)
Definition no_ties (xs : list Q) : Prop :=
  forall i j, (i < List.length xs)%nat -> (j < List.length xs)%nat ->
              i <> j -> ~ nth i xs 0 == nth j xs 0.

(** Two skewness values that denote the same number, or are both NaN. *)
Definition skew_eq (g g' : skewness) : Prop :=
  match g, g' with
  | SkewNaN, SkewNaN => True
  | SkewRatio m3 m2, SkewRatio m3' m2' => m3 == m3' /\ m2 == m2'
  | _, _ => False
  end.

(** Two results of [perform_analysis] that say the same: both raise the
    same error, both are [None], or both are dictionaries with the same
    skewness and medians over the same records in some order. *)
Definition same_result (o o' : outcome (option analysis)) : Prop :=
  match o, o' with
  | Ret (Some s), Ret (Some s') =>
      skew_eq (skew_ee s) (skew_ee s') /\ skew_eq (skew_ec s) (skew_ec s') /\
      feq (median_ee s) (median_ee s') /\ feq (median_ec s) (median_ec s') /\
      Permutation (data s) (data s')
  | Ret None, Ret None => True
  | Raise e, Raise e' => e = e'
  | Unmodelled, Unmodelled => True
  | _, _ => False
  end.

(** A cell in another unit: the number times [a]; NaN stays NaN. *)
Definition fscale (a : Q) (v : float64) : float64 := fmul (Some a) v.

(** A record with its Embodied Energy in a unit [a] times smaller and its
    Embodied Carbon in a unit [c] times smaller. *)
Definition rescale (a c : Q) (r : record) : record :=
  {| Material_description := Material_description r;
     Embodied_Energy := fscale a (Embodied_Energy r);
     Embodied_Carbon := fscale c (Embodied_Carbon r) |}.

(** The skewness of data scaled by [a]: NaN alike, or the moments scaled
    by [a^3] and [a^2], which leaves their quotient [m3 / m2^1.5] as it
    was. *)
Definition skew_scaled (a : Q) (g g' : skewness) : Prop :=
  match g, g' with
  | SkewNaN, SkewNaN => True
  | SkewRatio m3 m2, SkewRatio m3' m2' =>
      m3' == a * a * a * m3 /\ m2' == a * a * m2
  | _, _ => False
  end.

(** The result on a rescaled sheet against the result on the sheet. *)
Definition rescaled_result (a c : Q) (o o' : outcome (option analysis)) : Prop :=
  match o, o' with
  | Ret (Some s), Ret (Some s') =>
      skew_scaled a (skew_ee s) (skew_ee s') /\
      skew_scaled c (skew_ec s) (skew_ec s') /\
      feq (median_ee s') (fscale a (median_ee s)) /\
      feq (median_ec s') (fscale c (median_ec s)) /\
      data s' = List.map (rescale a c) (data s)
  | Ret None, Ret None => True
  | Raise e, Raise e' => e = e'
  | Unmodelled, Unmodelled => True
  | _, _ => False
  end.

(** ** More sample data *)

Definition materials : list string := ["vitrified"; "granite"; "concrete"]%string.

Definition secondary_rows : list (string * string) :=
  [("grout", "joints"); ("", "left blank"); ("adhesive", "bedding")]%string.

Definition on_granite : gmap string string :=
  {[ "vitrified"%string := "granite"%string ]}.

Definition always_grout (primary : string) : string := "grout"%string.

Definition two_tiles_swapped : DataFrame :=
  [tile (Some 12) NaN; tile (Some 10) (Some 1)].

(** * Properties *)

(** ** [perform_analysis] by cases on the filtering step *)

Lemma perform_analysis_cases df material :
  perform_analysis df material =
  match filter_material df material with
  | Ret [] => Ret None
  | Ret mat_df => Ret (Some (summary_of mat_df))
  | Raise e => Raise e
  | Unmodelled => Unmodelled
  end.
Proof.
  unfold perform_analysis, filter_material.
  destruct (str_contains _ _) as [mask| |]; reflexivity.
Qed.

Lemma perform_analysis_some df material s :
  perform_analysis df material = Ret (Some s) ->
  filter_material df material = Ret (data s) /\ data s <> [] /\ s = summary_of (data s).
Proof.
  rewrite perform_analysis_cases.
  destruct (filter_material df material) as [[|r mat]| |]; try discriminate.
  intros [= <-]. simpl. repeat split; discriminate.
Qed.

Lemma perform_analysis_matched df material mat_df :
  filter_material df material = Ret mat_df -> mat_df <> [] ->
  perform_analysis df material = Ret (Some (summary_of mat_df)).
Proof.
  intros Hf Hne. rewrite perform_analysis_cases, Hf.
  destruct mat_df; [contradiction | reflexivity].
Qed.

(** ** Facts about cells and sorting *)

Lemma dropna_map_Some (l : list Q) : dropna (List.map Some l) = l.
Proof. induction l as [|x l IH]; simpl; [reflexivity | now rewrite IH]. Qed.

Lemma insert_sorted_perm x l : Permutation (insert_sorted x l) (x :: l).
Proof.
  induction l as [|y l IH]; simpl; [reflexivity |].
  destruct (Qle_bool x y); [reflexivity |].
  rewrite IH. apply perm_swap.
Qed.

Lemma np_sort_perm l : Permutation (np_sort l) l.
Proof.
  induction l as [|x l IH]; simpl; [reflexivity |].
  unfold np_sort in *. simpl. rewrite insert_sorted_perm. now constructor.
Qed.

Lemma np_sort_length l : List.length (np_sort l) = List.length l.
Proof. apply Permutation_length, np_sort_perm. Qed.

Lemma np_sort_nil l : np_sort l = [] <-> l = [].
Proof.
  split; [| intros ->; reflexivity].
  intros H. apply length_zero_iff_nil. rewrite <- np_sort_length, H. reflexivity.
Qed.

Lemma insert_sorted_sorted x l :
  StronglySorted Qle l -> StronglySorted Qle (insert_sorted x l).
Proof.
  induction 1 as [|y l Hs IH Hall]; simpl.
  - repeat constructor.
  - destruct (Qle_bool x y) eqn:E.
    + apply Qle_bool_iff in E. constructor; [now constructor |].
      constructor; [assumption |].
      eapply List.Forall_impl; [| exact Hall]. intros z Hz. simpl in Hz. lra.
    + assert (y <= x).
      { destruct (Qlt_le_dec y x) as [H|H]; [lra |].
        apply Qle_bool_iff in H. congruence. }
      constructor; [assumption |].
      apply (Permutation_Forall (Permutation_sym (insert_sorted_perm x l))).
      now constructor.
Qed.

Lemma np_sort_sorted l : StronglySorted Qle (np_sort l).
Proof.
  induction l as [|x l IH]; [constructor |].
  apply insert_sorted_sorted, IH.
Qed.

Lemma sorted_nth_le (l : list Q) d i j :
  StronglySorted Qle l -> (i <= j)%nat -> (j < List.length l)%nat ->
  nth i l d <= nth j l d.
Proof.
  intros Hs. revert i j.
  induction Hs as [|x l Hs IH Hall]; intros i j Hij Hj; simpl in Hj; [lia |].
  destruct i as [|i], j as [|j]; simpl; try lia.
  - lra.
  - rewrite List.Forall_forall in Hall. apply Hall, nth_In. lia.
  - apply IH; lia.
Qed.

(** ** Linear interpolation and percentiles *)

Lemma lerp_value a b t : lerp a b t == a + t * (b - a).
Proof. unfold lerp. destruct (Qle_bool _ _); ring. Qed.

Lemma lerp_bounds a b t :
  a <= b -> 0 <= t -> t <= 1 -> a <= lerp a b t /\ lerp a b t <= b.
Proof. intros. rewrite lerp_value. split; nra. Qed.

Lemma last_index_nonneg (vs : list Q) :
  vs <> [] -> (0 <= Z.of_nat (List.length vs) - 1)%Z.
Proof. destruct vs; [contradiction | simpl List.length; lia]. Qed.

Lemma floor_index_range (last : Z) (q : Q) :
  (0 <= last)%Z -> 0 <= q -> q <= 1 ->
  (0 <= Qfloor (inject_Z last * q) <= last)%Z.
Proof.
  intros H Hq0 Hq1. rewrite Zle_Qle in H. change (inject_Z 0) with 0 in H.
  split.
  - change 0%Z with (Qfloor 0). apply Qfloor_resp_le. nra.
  - rewrite <- (Qfloor_Z last) at 2. apply Qfloor_resp_le. nra.
Qed.

Lemma frac_range (x : Q) :
  0 <= x - inject_Z (Qfloor x) /\ x - inject_Z (Qfloor x) <= 1.
Proof.
  pose proof (Qfloor_le x) as H0. pose proof (Qlt_floor x) as H1.
  rewrite inject_Z_plus in H1. change (inject_Z 1) with 1 in H1.
  split; lra.
Qed.

(** A percentile lies between the two order statistics it interpolates. *)
Lemma percentile_bounds (vs : list Q) (d q : Q) :
  StronglySorted Qle vs -> vs <> [] -> 0 <= q -> q <= 1 ->
  let last := (Z.of_nat (List.length vs) - 1)%Z in
  let lo := Qfloor (inject_Z last * q) in
  nth (Z.to_nat lo) vs d <= percentile_linear vs d q /\
  percentile_linear vs d q <= nth (Z.to_nat (Z.min (lo + 1) last)) vs d.
Proof.
  intros Hs Hne Hq0 Hq1 last lo.
  pose proof (floor_index_range last q (last_index_nonneg vs Hne) Hq0 Hq1) as Hlo.
  fold lo in Hlo.
  destruct (frac_range (inject_Z last * q)) as [Hg0 Hg1].
  unfold percentile_linear. fold last lo.
  apply lerp_bounds; [| assumption | assumption].
  apply sorted_nth_le; [assumption | lia | unfold last in *; lia].
Qed.

Lemma quarter_le_one : 1 # 4 <= 1. Proof. discriminate. Qed.
Lemma three_quarters_le_one : 3 # 4 <= 1. Proof. discriminate. Qed.
Lemma zero_le_quarter : 0 <= 1 # 4. Proof. discriminate. Qed.
Lemma zero_le_three_quarters : 0 <= 3 # 4. Proof. discriminate. Qed.

(** Some value always lies inside the retention window. *)
Lemma iqr_window_inhabited vs d :
  StronglySorted Qle vs -> vs <> [] ->
  let Q1 := percentile_linear vs d (1 # 4) in
  let Q3 := percentile_linear vs d (3 # 4) in
  Q1 <= Q3 /\
  exists v, In v vs /\
    Q1 - (3 # 2) * (Q3 - Q1) <= v /\ v <= Q3 + (3 # 2) * (Q3 - Q1).
Proof.
  intros Hs Hne Q1 Q3.
  destruct (Nat.eq_dec (List.length vs) 2%nat) as [H2|H2].
  - destruct vs as [|a [|b [|c vs']]]; try discriminate H2.
    assert (Hab : a <= b).
    { apply (sorted_nth_le [a; b] 0 0%nat 1%nat Hs); simpl; lia. }
    assert (H1 : Q1 == a + (1 # 4) * (b - a)).
    { subst Q1. change (percentile_linear [a; b] d (1 # 4)) with (lerp a b (1 # 4)).
      apply lerp_value. }
    assert (H3 : Q3 == a + (3 # 4) * (b - a)).
    { subst Q3. change (percentile_linear [a; b] d (3 # 4)) with (lerp a b (3 # 4)).
      apply lerp_value. }
    split; [lra |].
    exists a. split; [now left |]. split; lra.
  - pose proof (percentile_bounds vs d (1 # 4) Hs Hne zero_le_quarter quarter_le_one)
      as [_ H1].
    pose proof (percentile_bounds vs d (3 # 4) Hs Hne zero_le_three_quarters
                  three_quarters_le_one) as [H3 _].
    fold Q1 in H1. fold Q3 in H3.
    set (last := (Z.of_nat (List.length vs) - 1)%Z) in *.
    assert (Hlast : (0 <= last)%Z /\ last <> 1%Z).
    { subst last. destruct vs; [contradiction | simpl List.length in *; lia]. }
    change (Qfloor (inject_Z last * (1 # 4))) with (last * 1 / 4)%Z in H1.
    change (Qfloor (inject_Z last * (3 # 4))) with (last * 3 / 4)%Z in H3.
    set (hi1 := Z.min (last * 1 / 4 + 1) last) in *.
    set (lo3 := (last * 3 / 4)%Z) in *.
    assert (Hidx : (0 <= hi1 <= lo3)%Z /\ (lo3 <= last)%Z).
    { subst hi1 lo3. Z.div_mod_to_equations. lia. }
    assert (Hmid : nth (Z.to_nat hi1) vs d <= nth (Z.to_nat lo3) vs d).
    { apply sorted_nth_le; [assumption | lia | subst last; lia]. }
    split; [lra |].
    exists (nth (Z.to_nat lo3) vs d). split.
    + apply nth_In. subst last. lia.
    + split; lra.
Qed.

(** ** Masks *)

Lemma getitem_mask_map {A : Type} (f : A -> bool) (l : list A) :
  getitem_mask l (List.map f l) = List.filter f l.
Proof.
  induction l as [|x l IH]; simpl; [reflexivity |].
  rewrite IH. reflexivity.
Qed.

Lemma between_filter col lo hi :
  between col lo hi = List.filter (fun v => fge v lo && fle v hi) col.
Proof. apply getitem_mask_map. Qed.

Lemma dropna_filter (f : float64 -> bool) (g : Q -> bool) col :
  (forall v, f (Some v) = g v) ->
  dropna (List.filter f col) = List.filter g (dropna col).
Proof.
  intros Hfg. induction col as [|[v|] col IH]; simpl; [reflexivity | |].
  - rewrite Hfg. destruct (g v); simpl; now rewrite IH.
  - destruct (f None); simpl; exact IH.
Qed.

Lemma between_dropna col lo hi :
  dropna (between col (Some lo) (Some hi)) =
  List.filter (fun v => Qle_bool lo v && Qle_bool v hi) (dropna col).
Proof. rewrite between_filter. now apply dropna_filter. Qed.

Lemma between_nan_l col hi : between col NaN hi = [].
Proof.
  rewrite between_filter. induction col as [|[v|] col IH]; simpl; auto.
Qed.

Lemma median_defined s : dropna s <> [] -> exists m, median s = Some m.
Proof.
  intros Hne. unfold median.
  destruct (np_sort (dropna s)) as [|d t] eqn:E.
  - apply (proj1 (np_sort_nil _)) in E. contradiction.
  - destruct (Nat.even _); eexists; reflexivity.
Qed.

Lemma median_empty s : dropna s = [] -> median s = NaN.
Proof. intros H. unfold median. now rewrite H. Qed.

Lemma quantile_empty s q : dropna s = [] -> quantile s q = NaN.
Proof. intros H. unfold quantile. now rewrite H. Qed.

(** The retained values, when the column has a non-null value. *)
Lemma iqr_clean_values col d t :
  np_sort (dropna col) = d :: t ->
  let Q1 := percentile_linear (d :: t) d (1 # 4) in
  let Q3 := percentile_linear (d :: t) d (3 # 4) in
  iqr_clean col =
  between col (Some (Q1 - (3 # 2) * (Q3 - Q1))) (Some (Q3 + (3 # 2) * (Q3 - Q1))).
Proof. intros E. unfold iqr_clean, quantile. rewrite E. reflexivity. Qed.

Lemma iqr_clean_all_null col : dropna col = [] -> iqr_clean col = [].
Proof.
  intros H. unfold iqr_clean. rewrite !quantile_empty by assumption.
  apply between_nan_l.
Qed.

Lemma iqr_clean_nonempty col : dropna col <> [] -> dropna (iqr_clean col) <> [].
Proof.
  intros Hne.
  destruct (np_sort (dropna col)) as [|d t] eqn:E.
  { apply (proj1 (np_sort_nil _)) in E. contradiction. }
  rewrite (iqr_clean_values col d t E), between_dropna.
  destruct (iqr_window_inhabited (d :: t) d) as (_ & v & Hin & Hlo & Hhi).
  { rewrite <- E. apply np_sort_sorted. }
  { discriminate. }
  assert (Hv : In v (dropna col)).
  { eapply Permutation_in; [apply np_sort_perm |]. now rewrite E. }
  intros Hnil.
  assert (Hf : In v (List.filter
     (fun v0 => Qle_bool (percentile_linear (d :: t) d (1 # 4) -
                          (3 # 2) * (percentile_linear (d :: t) d (3 # 4) -
                                     percentile_linear (d :: t) d (1 # 4))) v0
                && Qle_bool v0 (percentile_linear (d :: t) d (3 # 4) +
                          (3 # 2) * (percentile_linear (d :: t) d (3 # 4) -
                                     percentile_linear (d :: t) d (1 # 4))))
     (dropna col))).
  { apply filter_In. split; [assumption |].
    apply andb_true_intro. split; now apply Qle_bool_iff. }
  rewrite Hnil in Hf. contradiction.
Qed.

Lemma trimmed_median_defined col :
  dropna col <> [] -> exists m, trimmed_median col = Some m.
Proof. intros H. apply median_defined, iqr_clean_nonempty, H. Qed.

Lemma trimmed_median_all_null col : dropna col = [] -> trimmed_median col = NaN.
Proof.
  intros H. unfold trimmed_median. rewrite iqr_clean_all_null by assumption.
  reflexivity.
Qed.

(** ** The code's percentile, median and trimming against the
    specification's *)

Lemma percentile_linear_interp xs d q :
  xs <> [] -> 0 <= q -> q <= 1 ->
  let h := inject_Z (Z.of_nat (List.length xs) - 1) * q in
  let k := Z.to_nat (Qfloor h) in
  percentile_linear xs d q ==
  nth k xs d + (h - inject_Z (Qfloor h)) * (nth (S k) xs (nth k xs d) - nth k xs d).
Proof.
  intros Hne Hq0 Hq1 h k.
  pose proof (floor_index_range _ q (last_index_nonneg xs Hne) Hq0 Hq1) as Hlo.
  fold h in Hlo.
  unfold percentile_linear. fold h. rewrite lerp_value. fold k.
  destruct (Z_lt_le_dec (Qfloor h) (Z.of_nat (List.length xs) - 1)) as [Hlt|Hge].
  - rewrite Z.min_l by lia.
    replace (Z.to_nat (Qfloor h + 1)) with (S k) by (subst k; lia).
    rewrite (nth_indep xs (nth k xs d) d) by (subst k; lia).
    ring.
  - rewrite Z.min_r by lia.
    replace (Z.to_nat (Z.of_nat (List.length xs) - 1)) with k by (subst k; lia).
    rewrite (nth_overflow xs (nth k xs d)) by (subst k; lia).
    ring.
Qed.

Lemma quantile_spec col q :
  0 <= q -> q <= 1 -> feq (quantile col q) (spec_percentile (dropna col) q).
Proof.
  intros Hq0 Hq1. unfold quantile, spec_percentile.
  destruct (np_sort (dropna col)) as [|d t]; [exact I |].
  simpl feq. apply percentile_linear_interp; [discriminate | assumption | assumption].
Qed.

Lemma median_spec s : feq (median s) (spec_percentile (dropna s) (1 # 2)).
Proof.
  unfold median, spec_percentile.
  destruct (np_sort (dropna s)) as [|d t]; [exact I |].
  assert (Hn : (1 <= List.length (d :: t))%nat) by (simpl; lia).
  remember (d :: t) as xs eqn:Exs. clear Exs.
  remember (List.length xs) as n eqn:En.
  cbv zeta.
  change (Qfloor (inject_Z (Z.of_nat n - 1) * (1 # 2)))
    with ((Z.of_nat n - 1) * 1 / 2)%Z.
  destruct (Nat.even n) eqn:Ev.
  - apply Nat.even_spec in Ev. destruct Ev as [m Hm].
    assert (Hk : Z.to_nat ((Z.of_nat n - 1) * 1 / 2) = (m - 1)%nat).
    { rewrite Hm. Z.div_mod_to_equations. lia. }
    assert (Hd : (n / 2 = m)%nat).
    { rewrite Hm, Nat.mul_comm. apply Nat.div_mul. lia. }
    assert (Hf : inject_Z ((Z.of_nat n - 1) * 1 / 2) == inject_Z (Z.of_nat n - 1) * (1 # 2) - (1 # 2)).
    { replace ((Z.of_nat n - 1) * 1 / 2)%Z with (Z.of_nat m - 1)%Z
        by (rewrite Hm; Z.div_mod_to_equations; lia).
      replace (Z.of_nat n - 1)%Z with (2 * (Z.of_nat m - 1) + 1)%Z by lia.
      rewrite inject_Z_plus, inject_Z_mult. change (inject_Z 2) with 2.
      change (inject_Z 1) with 1. field. }
    unfold feq. rewrite Hk, Hd, Hf.
    replace (S (m - 1)) with m by lia.
    rewrite (nth_indep xs (nth (m - 1) xs d) d) by lia.
    field.
  - assert (Ho : Nat.odd n = true) by (rewrite <- Nat.negb_even, Ev; reflexivity).
    apply Nat.odd_spec in Ho. destruct Ho as [m Hm].
    assert (Hk : Z.to_nat ((Z.of_nat n - 1) * 1 / 2) = m).
    { rewrite Hm. Z.div_mod_to_equations. lia. }
    assert (Hd : (n / 2 = m)%nat).
    { rewrite Hm. symmetry. apply (Nat.div_unique _ 2 m 1); lia. }
    assert (Hf : inject_Z ((Z.of_nat n - 1) * 1 / 2) == inject_Z (Z.of_nat n - 1) * (1 # 2)).
    { replace ((Z.of_nat n - 1) * 1 / 2)%Z with (Z.of_nat m)
        by (rewrite Hm; Z.div_mod_to_equations; lia).
      replace (Z.of_nat n - 1)%Z with (2 * Z.of_nat m)%Z by lia.
      rewrite inject_Z_mult. change (inject_Z 2) with 2. field. }
    unfold feq. rewrite Hk, Hd, Hf. ring.
Qed.

Lemma spec_retained_code col : spec_retained col = dropna (iqr_clean col).
Proof.
  unfold spec_retained, spec_percentile.
  destruct (np_sort (dropna col)) as [|d t] eqn:E.
  - apply (proj1 (np_sort_nil _)) in E.
    now rewrite iqr_clean_all_null.
  - rewrite (iqr_clean_values col d t E), between_dropna.
    pose proof (percentile_linear_interp (d :: t) d (1 # 4)) as H1.
    pose proof (percentile_linear_interp (d :: t) d (3 # 4)) as H3.
    cbv zeta in H1, H3.
    specialize (H1 ltac:(discriminate) zero_le_quarter quarter_le_one).
    specialize (H3 ltac:(discriminate) zero_le_three_quarters three_quarters_le_one).
    apply filter_ext. intros v.
    rewrite <- H1, <- H3. reflexivity.
Qed.

Lemma trimmed_median_spec col :
  feq (trimmed_median col) (spec_trimmed_median col).
Proof.
  unfold trimmed_median, spec_trimmed_median.
  rewrite spec_retained_code. apply median_spec.
Qed.

(** Every value between the two quartiles is retained. *)
Lemma iqr_clean_keeps_middle col q1 q3 v :
  quantile col (1 # 4) = Some q1 -> quantile col (3 # 4) = Some q3 ->
  In (Some v) col -> q1 <= v -> v <= q3 -> In (Some v) (iqr_clean col).
Proof.
  intros E1 E3 Hin Hlo Hhi. unfold quantile in E1, E3.
  destruct (np_sort (dropna col)) as [|d t] eqn:E; [discriminate |].
  injection E1 as <-. injection E3 as <-.
  destruct (iqr_window_inhabited (d :: t) d) as (Hiqr & _).
  { rewrite <- E. apply np_sort_sorted. }
  { discriminate. }
  cbv zeta in Hiqr.
  rewrite (iqr_clean_values col d t E), between_filter.
  apply filter_In. split; [assumption |].
  apply andb_true_intro. split; apply Qle_bool_iff; nra.
Qed.

(** ** Skewness of small samples *)

Lemma skew_ratio_pos a m3 m2 : skew a = SkewRatio m3 m2 -> 0 < m2.
Proof.
  unfold skew. destruct a as [|x a]; [discriminate |].
  destruct (Qle_bool _ _) eqn:E; [discriminate |].
  intros [= _ <-].
  set (m2 := moment 2 (x :: a) (np_mean (x :: a))) in *.
  set (b := resolution * np_mean (x :: a)) in *.
  destruct (Qlt_le_dec 0 m2) as [H|H]; [assumption |].
  assert (Hle : m2 <= Qpower_positive b 2).
  { change (Qpower_positive b 2) with (b * b). nra. }
  apply Qle_bool_iff in Hle. congruence.
Qed.

Lemma skew_one x : skew [x] = SkewNaN.
Proof.
  unfold skew.
  assert (H : moment 2 [x] (np_mean [x]) <=
              Qpower_positive (resolution * np_mean [x]) 2).
  { change (Qpower_positive (resolution * np_mean [x]) 2)
      with (resolution * np_mean [x] * (resolution * np_mean [x])).
    assert (H0 : moment 2 [x] (np_mean [x]) == 0).
    { unfold moment, np_mean, Qsum. simpl. field. }
    rewrite H0. nra. }
  apply Qle_bool_iff in H. now rewrite H.
Qed.

Lemma skew_two x y :
  skew [x; y] = SkewNaN \/
  exists m3 m2, skew [x; y] = SkewRatio m3 m2 /\ m3 == 0 /\ 0 < m2.
Proof.
  destruct (skew [x; y]) as [|m3 m2] eqn:E; [now left | right].
  exists m3, m2. split; [reflexivity |]. split.
  - unfold skew in E. destruct (Qle_bool _ _); [discriminate |].
    injection E as <- _. unfold moment, np_mean, Qsum. simpl. field.
  - eapply skew_ratio_pos, E.
Qed.

(** ** The matcher against the language of a pattern *)

Lemma append_nil_l s : String.append EmptyString s = s.
Proof. reflexivity. Qed.

Lemma append_cons c s t :
  String.append (String c s) t = String c (String.append s t).
Proof. reflexivity. Qed.

Lemma append_eq_empty s1 s2 :
  String.append s1 s2 = EmptyString -> s1 = EmptyString /\ s2 = EmptyString.
Proof.
  destruct s1; [rewrite append_nil_l; tauto | rewrite append_cons; discriminate].
Qed.

Lemma lang_void_inv s : ~ in_lang Void s.
Proof. inversion 1. Qed.

Lemma lang_eps_inv s : in_lang Eps s -> s = EmptyString.
Proof. inversion 1. reflexivity. Qed.

Lemma lang_chr_inv c s :
  in_lang (Chr c) s -> exists d, s = String d EmptyString /\ eqb_ic d c = true.
Proof. inversion 1; subst. eauto. Qed.

Lemma lang_any_inv s :
  in_lang AnyChar s ->
  exists d, s = String d EmptyString /\ Ascii.eqb d "010" = false.
Proof. inversion 1; subst. eauto. Qed.

Lemma lang_cat_inv r1 r2 s :
  in_lang (Cat r1 r2) s ->
  exists s1 s2, s = String.append s1 s2 /\ in_lang r1 s1 /\ in_lang r2 s2.
Proof. inversion 1; subst. eauto. Qed.

Lemma lang_alt_inv r1 r2 s :
  in_lang (Alt r1 r2) s -> in_lang r1 s \/ in_lang r2 s.
Proof. inversion 1; subst; tauto. Qed.

Lemma nullable_lang r : nullable r = true <-> in_lang r EmptyString.
Proof.
  induction r as [| |c| |r1 IH1 r2 IH2|r1 IH1 r2 IH2|r IH]; simpl.
  - split; [discriminate | intros H; destruct (lang_void_inv _ H)].
  - split; [constructor | reflexivity].
  - split; [discriminate |]. intros H.
    apply lang_chr_inv in H. destruct H as (d & E & _). discriminate E.
  - split; [discriminate |]. intros H.
    apply lang_any_inv in H. destruct H as (d & E & _). discriminate E.
  - rewrite andb_true_iff, IH1, IH2. split.
    + intros [H1 H2]. apply (lang_cat r1 r2 EmptyString EmptyString H1 H2).
    + intros H. apply lang_cat_inv in H. destruct H as (s1 & s2 & E & H1 & H2).
      symmetry in E. apply append_eq_empty in E. destruct E; subst. tauto.
  - rewrite orb_true_iff, IH1, IH2. split.
    + intros [H|H]; [now apply lang_alt_l | now apply lang_alt_r].
    + apply lang_alt_inv.
  - split; [constructor | reflexivity].
Qed.

(** A repetition that matches a non-empty string starts with a non-empty
    match of its body. *)
Lemma star_uncons r c s :
  in_lang (Star r) (String c s) ->
  exists s1 s2,
    s = String.append s1 s2 /\ in_lang r (String c s1) /\ in_lang (Star r) s2.
Proof.
  intros H. remember (Star r) as r' eqn:Er. remember (String c s) as t eqn:Et.
  revert s Et.
  induction H as [| | | | | | |r0 s1 s2 H1 _ H2 IH2]; try discriminate; intros s Et.
  injection Er as ->.
  destruct s1 as [|c1 s1]; rewrite ?append_nil_l, ?append_cons in Et.
  - apply IH2; [reflexivity | assumption].
  - injection Et as -> <-. eauto.
Qed.

Lemma deriv_lang c r s : in_lang (deriv c r) s <-> in_lang r (String c s).
Proof.
  revert s. induction r as [| |d| |r1 IH1 r2 IH2|r1 IH1 r2 IH2|r IH]; intros s; simpl.
  - split; intros H; destruct (lang_void_inv _ H).
  - split; intros H; [destruct (lang_void_inv _ H) |].
    apply lang_eps_inv in H. discriminate H.
  - split.
    + destruct (eqb_ic c d) eqn:E; intros H; [| destruct (lang_void_inv _ H)].
      apply lang_eps_inv in H. subst s. now constructor.
    + intros H. apply lang_chr_inv in H. destruct H as (d' & [= -> ->] & E).
      rewrite E. constructor.
  - split.
    + destruct (Ascii.eqb c "010") eqn:E; intros H; [destruct (lang_void_inv _ H) |].
      apply lang_eps_inv in H. subst s. now constructor.
    + intros H. apply lang_any_inv in H. destruct H as (d' & [= -> ->] & E).
      rewrite E. constructor.
  - assert (Hcat : in_lang (Cat (deriv c r1) r2) s ->
                   in_lang (Cat r1 r2) (String c s)).
    { intros H. apply lang_cat_inv in H. destruct H as (s1 & s2 & -> & H1 & H2).
      apply IH1 in H1. apply (lang_cat r1 r2 (String c s1) s2 H1 H2). }
    assert (Hback : in_lang (Cat r1 r2) (String c s) ->
                    in_lang (Cat (deriv c r1) r2) s \/
                    (in_lang r1 EmptyString /\ in_lang (deriv c r2) s)).
    { intros H. apply lang_cat_inv in H. destruct H as (s1 & s2 & E & H1 & H2).
      destruct s1 as [|c1 s1]; rewrite ?append_nil_l, ?append_cons in E.
      - right. subst s2. split; [assumption | now apply IH2].
      - injection E as <- ->. left. constructor; [now apply IH1 | assumption]. }
    destruct (nullable r1) eqn:En.
    + apply nullable_lang in En. split.
      * intros H. apply lang_alt_inv in H. destruct H as [H|H]; [now apply Hcat |].
        apply (lang_cat r1 r2 EmptyString (String c s) En). now apply IH2.
      * intros H. destruct (Hback H) as [H'|[_ H']];
          [now apply lang_alt_l | now apply lang_alt_r].
    + split; [exact Hcat |]. intros H. destruct (Hback H) as [H'|[H' _]];
        [assumption |]. apply nullable_lang in H'. congruence.
  - split; intros H; apply lang_alt_inv in H; destruct H as [H|H].
    + apply lang_alt_l. now apply IH1.
    + apply lang_alt_r. now apply IH2.
    + apply lang_alt_l. now apply IH1.
    + apply lang_alt_r. now apply IH2.
  - split.
    + intros H. apply lang_cat_inv in H. destruct H as (s1 & s2 & -> & H1 & H2).
      apply IH in H1. apply (lang_star_more r (String c s1) s2 H1 H2).
    + intros H. apply star_uncons in H. destruct H as (s1 & s2 & -> & H1 & H2).
      constructor; [now apply IH | assumption].
Qed.

(** [re_match] finds a match that starts at the first character. *)
Lemma re_match_lang r s :
  re_match r s = true <->
  exists s1 s2, s = String.append s1 s2 /\ in_lang r s1.
Proof.
  revert r. induction s as [|c s IH]; intros r; simpl.
  - rewrite orb_false_r, nullable_lang. split.
    + intros H. exists EmptyString, EmptyString. now split.
    + intros (s1 & s2 & E & H). symmetry in E. apply append_eq_empty in E.
      destruct E; now subst.
  - rewrite orb_true_iff, nullable_lang, IH. split.
    + intros [H | (s1 & s2 & -> & H)].
      * exists EmptyString, (String c s). now split.
      * exists (String c s1), s2. split; [reflexivity | now apply deriv_lang].
    + intros (s1 & s2 & E & H). destruct s1 as [|c1 s1]; [now left | right].
      rewrite append_cons in E. injection E as <- ->. exists s1, s2.
      split; [reflexivity | now apply deriv_lang].
Qed.

(** [re_search] finds a match anywhere in the string. *)
Lemma re_search_lang r s :
  re_search r s = true <->
  exists s0 s1 s2,
    s = String.append s0 (String.append s1 s2) /\ in_lang r s1.
Proof.
  induction s as [|c s IH].
  - cbn [re_search]. rewrite orb_false_r, re_match_lang. split.
    + intros (s1 & s2 & E & H). exists EmptyString, s1, s2. now split.
    + intros (s0 & s1 & s2 & E & H). symmetry in E.
      apply append_eq_empty in E. destruct E as [-> E]. eauto.
  - cbn [re_search]. rewrite orb_true_iff, IH, re_match_lang. split.
    + intros [(s1 & s2 & E & H) | (s0 & s1 & s2 & -> & H)].
      * exists EmptyString, s1, s2. now split.
      * exists (String c s0), s1, s2. now split.
    + intros (s0 & s1 & s2 & E & H).
      destruct s0 as [|c0 s0]; rewrite ?append_nil_l, ?append_cons in E.
      * left. eauto.
      * right. injection E as <- ->. eauto.
Qed.

(** ** What the parser makes of some materials *)

Example compile_parenthesised :
  re_compile "tile (glazed)" =
  Pattern (literal_onto "tile " (Cat (literal "glazed") Eps)).
Proof. reflexivity. Qed.

Example compile_dot :
  re_compile "gr.n" =
  Pattern (Cat (Chr "g") (Cat (Chr "r") (Cat AnyChar (Cat (Chr "n") Eps)))).
Proof. reflexivity. Qed.

Example compile_alternation :
  re_compile "a|b+" =
  Pattern (Alt (Cat (Chr "a") Eps) (Cat (Cat (Chr "b") (Star (Chr "b"))) Eps)).
Proof. reflexivity. Qed.

Example compile_errors :
  re_compile "a)" = ReError "unbalanced parenthesis" /\
  re_compile "a**" = ReError "multiple repeat" /\
  re_compile "|*" = ReError "nothing to repeat".
Proof. repeat split. Qed.

Example compile_outside_fragment :
  re_compile "c++" = Unsupported /\ re_compile "[ab]" = Unsupported /\
  re_compile "a{2}" = Unsupported.
Proof. repeat split. Qed.

(** ** Patterns without special characters *)

Lemma is_special_false c :
  is_special c = false ->
  Ascii.eqb c "(" = false /\ Ascii.eqb c ")" = false /\ Ascii.eqb c "|" = false /\
  Ascii.eqb c "*" = false /\ Ascii.eqb c "+" = false /\ Ascii.eqb c "?" = false /\
  Ascii.eqb c "." = false.
Proof.
  unfold is_special, special_chars. simpl. intros H.
  repeat match type of H with
         | (_ || _)%bool = false => apply orb_false_elim in H; destruct H as [? H]
         end.
  repeat split; assumption.
Qed.

Lemma sre_parse_literal p stack alts items :
  no_special p = true ->
  sre_parse p stack alts items = sre_parse EmptyString stack alts (push_literal p items).
Proof.
  revert items. induction p as [|c p IH]; intros items Hp; [reflexivity |].
  simpl in Hp. apply andb_prop in Hp. destruct Hp as [Hc Hp].
  apply negb_true_iff in Hc.
  destruct (is_special_false c Hc) as (H1 & H2 & H3 & H4 & H5 & H6 & H7).
  simpl. rewrite H1, H2, H3, H4, H5, H6, H7, Hc. simpl.
  apply IH, Hp.
Qed.

Lemma seq_regex_push p items acc :
  fold_left (fun acc it => Cat (fst it) acc) (push_literal p items) acc =
  fold_left (fun acc it => Cat (fst it) acc) items (literal_onto p acc).
Proof.
  revert items. induction p as [|c p IH]; intros items; [reflexivity |].
  simpl. rewrite IH. reflexivity.
Qed.

Lemma re_compile_literal p : no_special p = true -> re_compile p = Pattern (literal p).
Proof.
  intros Hp. unfold re_compile. rewrite sre_parse_literal by assumption.
  simpl. unfold close_group, seq_regex. simpl. now rewrite seq_regex_push.
Qed.

Lemma re_match_alt r1 r2 s :
  re_match (Alt r1 r2) s = re_match r1 s || re_match r2 s.
Proof.
  revert r1 r2. induction s as [|c s IH]; intros r1 r2; simpl.
  - now rewrite !orb_false_r.
  - rewrite IH. destruct (nullable r1), (nullable r2), (re_match (deriv c r1) s);
      reflexivity.
Qed.

Lemma re_match_void_cat r s : re_match (Cat Void r) s = false.
Proof. induction s as [|c s IH]; simpl; [reflexivity | exact IH]. Qed.

Lemma re_match_eps_cat r s : re_match (Cat Eps r) s = re_match r s.
Proof.
  destruct s as [|c s]; simpl; [reflexivity |].
  now rewrite re_match_alt, re_match_void_cat.
Qed.

Lemma re_match_chr_cat a r s :
  re_match (Cat (Chr a) r) s =
  match s with
  | EmptyString => false
  | String c s' => eqb_ic c a && re_match r s'
  end.
Proof.
  destruct s as [|c s]; simpl; [reflexivity |].
  destruct (eqb_ic c a); [apply re_match_eps_cat | apply re_match_void_cat].
Qed.

Lemma re_match_literal p s : re_match (literal p) s = prefix_ic p s.
Proof.
  revert s. unfold literal. induction p as [|a p IH]; intros s.
  - destruct s; reflexivity.
  - simpl literal_onto. rewrite re_match_chr_cat.
    destruct s as [|c s]; [reflexivity |]. simpl. now rewrite IH.
Qed.

Lemma re_search_literal p s : re_search (literal p) s = icontains p s.
Proof.
  induction s as [|c s IH]; cbn [re_search icontains];
    rewrite re_match_literal; [reflexivity | now rewrite IH].
Qed.

(** A material without special characters selects by plain containment. *)
Lemma filter_material_literal df material :
  no_special material = true ->
  filter_material df material = Ret (spec_filter df material).
Proof.
  intros Hp. unfold filter_material, str_contains.
  rewrite re_compile_literal by assumption. f_equal.
  unfold spec_filter. rewrite List.map_map, getitem_mask_map.
  apply filter_ext. intros r.
  destruct (Material_description r); [apply re_search_literal | reflexivity].
Qed.

(** ** The combination loop *)

Lemma combine_step_app mapping results acc primary :
  combine_step mapping results acc primary =
  acc ++ combine_step mapping results [] primary.
Proof.
  unfold combine_step. destruct (results !! primary); [reflexivity |].
  now rewrite app_nil_r.
Qed.

Lemma fold_combine_app mapping results ps acc :
  fold_left (combine_step mapping results) ps acc =
  acc ++ fold_left (combine_step mapping results) ps [].
Proof.
  revert acc. induction ps as [|p ps IH]; intros acc; simpl.
  - now rewrite app_nil_r.
  - rewrite IH, (IH (combine_step _ _ [] p)), combine_step_app.
    now rewrite app_assoc.
Qed.

Lemma combine_cons p ps mapping results :
  combine (p :: ps) mapping results =
  combine_step mapping results [] p ++ combine ps mapping results.
Proof. unfold combine. simpl. apply fold_combine_app. Qed.

Lemma combine_step_row mapping results p r :
  In r (combine_step mapping results [] p) ->
  Primary r = p /\ row_ok mapping results r.
Proof.
  unfold combine_step. destruct (results !! p) as [pr|] eqn:Ep; [| intros []].
  intros [<- | []]. split; [reflexivity |].
  exists pr. simpl. split; [assumption |].
  destruct (truthy (mapping !! p)) as [sec|]; simpl.
  - split; [reflexivity |]. destruct (results !! sec); split; reflexivity.
  - repeat split.
Qed.

Lemma combine_rows ps mapping results r :
  In r (combine ps mapping results) -> In (Primary r) ps /\ row_ok mapping results r.
Proof.
  induction ps as [|p ps IH]; [intros [] |].
  rewrite combine_cons, in_app_iff. intros [H | H].
  - apply combine_step_row in H. destruct H as [<- H]. split; [now left | exact H].
  - destruct (IH H) as [H1 H2]. split; [now right | exact H2].
Qed.

Lemma combine_primaries ps mapping results :
  List.map Primary (combine ps mapping results) =
  List.filter (fun p => bool_decide (is_Some (results !! p))) ps.
Proof.
  induction ps as [|p ps IH]; [reflexivity |].
  rewrite combine_cons, List.map_app, IH. simpl. unfold combine_step.
  destruct (results !! p) as [pr|] eqn:Ep; reflexivity.
Qed.

(** ** Frames as objects *)

Lemma alloc_fresh (σ : gmap loc DataFrame) d : σ !! (alloc σ d).1 = None.
Proof. unfold alloc. simpl. apply (not_elem_of_dom σ), is_fresh. Qed.

Lemma alloc_extends (σ : gmap loc DataFrame) d : σ ⊆ (alloc σ d).2.
Proof. unfold alloc. simpl. apply insert_subseteq, (alloc_fresh σ d). Qed.

Lemma alloc_lookup (σ : gmap loc DataFrame) d : (alloc σ d).2 !! (alloc σ d).1 = Some d.
Proof. apply lookup_insert_eq. Qed.

Lemma perform_analysis_obj_spec σ df d material :
  σ !! df = Some d ->
  let run := perform_analysis_obj σ df material in
  result_of run.1 = perform_analysis d material /\
  σ ⊆ run.2 /\
  forall s l, run.1 = Ret (Some (s, l)) -> σ !! l = None /\ run.2 !! l = Some (data s).
Proof.
  intros Hd. unfold perform_analysis_obj. rewrite Hd.
  rewrite perform_analysis_cases.
  destruct (filter_material d material) as [mat| |]; simpl.
  - destruct mat as [|r mat]; simpl.
    + split; [reflexivity |]. split; [apply (alloc_extends σ []) | discriminate].
    + split; [reflexivity |]. split; [apply (alloc_extends σ (r :: mat)) |].
      intros s l [= <- <-].
      split; [apply (alloc_fresh σ (r :: mat)) | apply (alloc_lookup σ (r :: mat))].
  - split; [reflexivity |]. split; [reflexivity | discriminate].
  - split; [reflexivity |]. split; [reflexivity | discriminate].
Qed.

(** ** Sorting the comparison table *)

Lemma dropna_app s1 s2 : dropna (s1 ++ s2) = dropna s1 ++ dropna s2.
Proof.
  induction s1 as [|[v|] s1 IH]; simpl; [reflexivity | now rewrite IH | exact IH].
Qed.

Lemma dropna_all_nan s : Forall (fun v => isna v = true) s -> dropna s = [].
Proof.
  induction 1 as [|[v|] s Hv _ IH]; simpl; [reflexivity | discriminate | exact IH].
Qed.

Lemma filter_split_perm {A : Type} (f : A -> bool) (l : list A) :
  Permutation l (List.filter (fun x => negb (f x)) l ++ List.filter f l).
Proof.
  induction l as [|x l IH]; simpl; [constructor |].
  destruct (f x); simpl.
  - apply Permutation_cons_app, IH.
  - now constructor.
Qed.

(** Reading a frame at the positions a mask keeps gives the rows it keeps. *)
Lemma lookup_getitem_mask {A : Type} (pre l : list A) (mask : list bool) :
  List.map (fun i => (pre ++ l) !! i)
           (getitem_mask (seq (List.length pre) (List.length l)) mask) =
  List.map Some (getitem_mask l mask).
Proof.
  revert pre mask. induction l as [|x l IH]; intros pre mask; [reflexivity |].
  destruct mask as [|b mask]; [reflexivity |].
  assert (IH' := IH (pre ++ [x]) mask).
  rewrite <- app_assoc, length_app in IH'. simpl in IH'.
  rewrite Nat.add_1_r in IH'.
  simpl. destruct b; simpl; [| exact IH'].
  rewrite IH'. f_equal. apply list_lookup_middle. reflexivity.
Qed.

Lemma omap_map_Some {A B : Type} (g : A -> option B) (xs : list A) (ys : list B) :
  List.map g xs = List.map Some ys -> omap g xs = ys.
Proof.
  revert ys. induction xs as [|x xs IH]; intros [|y ys] H; try discriminate;
    [reflexivity |].
  simpl in H. injection H as Hx Hxs. simpl. rewrite Hx. f_equal. now apply IH.
Qed.

Lemma take_getitem_mask (df : list row) (mask : list bool) :
  take df (getitem_mask (seq 0 (List.length df)) mask) = getitem_mask df mask.
Proof. apply omap_map_Some, (lookup_getitem_mask [] df mask). Qed.

Lemma lookup_seq {A : Type} (pre l : list A) :
  List.map (fun i => (pre ++ l) !! i) (seq (List.length pre) (List.length l)) =
  List.map Some l.
Proof.
  revert pre. induction l as [|x l IH]; intros pre; [reflexivity |].
  assert (IH' := IH (pre ++ [x])).
  rewrite <- app_assoc, length_app in IH'. simpl in IH'.
  rewrite Nat.add_1_r in IH'.
  simpl. rewrite IH'. f_equal. apply list_lookup_middle. reflexivity.
Qed.

Lemma take_seq (df : list row) : take df (seq 0 (List.length df)) = df.
Proof. apply omap_map_Some, (lookup_seq [] df). Qed.

Lemma take_app df i1 i2 : take df (i1 ++ i2) = take df i1 ++ take df i2.
Proof. unfold take. apply omap_app. Qed.

Lemma take_perm df i1 i2 : Permutation i1 i2 -> Permutation (take df i1) (take df i2).
Proof. unfold take. intros H. now rewrite H. Qed.

Section SortValues.
Variables (m : metric) (df : list row) (order : list nat).

Lemma valued_values :
  List.map (column m) (valued m df) =
  List.map Some (dropna (List.map (column m) df)).
Proof using Type.
  unfold valued. induction df as [|r l IH]; [reflexivity |].
  simpl. destruct (column m r) eqn:E; simpl; [| exact IH].
  rewrite E, IH. reflexivity.
Qed.

Lemma valued_length :
  List.length (valued m df) = List.length (dropna (List.map (column m) df)).
Proof using Type.
  rewrite <- (length_map (column m) (valued m df)), valued_values.
  apply length_map.
Qed.

Lemma non_nan_rows :
  List.map (fun i => df !! i) (non_nan_idx (List.map (column m) df)) =
  List.map Some (valued m df).
Proof using Type.
  unfold non_nan_idx, valued.
  rewrite length_map, (lookup_getitem_mask [] df), List.map_map, getitem_mask_map.
  reflexivity.
Qed.

Lemma nan_rows : take df (nan_idx (List.map (column m) df)) = unvalued m df.
Proof using Type.
  unfold nan_idx, unvalued.
  rewrite length_map, take_getitem_mask, List.map_map, getitem_mask_map.
  reflexivity.
Qed.

Lemma sorted_rows_lookup j :
  (j < List.length (valued m df))%nat ->
  df !! nth j (non_nan_idx (List.map (column m) df)) O = valued m df !! j.
Proof using Type.
  intros Hj.
  set (nni := non_nan_idx (List.map (column m) df)).
  assert (Hlen : List.length nni = List.length (valued m df)).
  { rewrite <- (length_map (fun i => df !! i)). unfold nni.
    rewrite non_nan_rows. apply length_map. }
  assert (H := f_equal (fun l => nth j l None) non_nan_rows). simpl in H.
  fold nni in H.
  rewrite (nth_indep _ None (df !! O)) in H by (rewrite length_map; lia).
  rewrite (map_nth (fun i => df !! i)) in H. rewrite H.
  destruct (valued m df !! j) as [g|] eqn:Eg.
  - rewrite (nth_indep _ None (Some g)) by (rewrite length_map; lia).
    rewrite (map_nth Some). f_equal. apply nth_lookup_Some with (d := g) in Eg.
    exact Eg.
  - apply lookup_ge_None in Eg. lia.
Qed.

Lemma sorted_part_rows_in (l : list nat) :
  Forall (fun j => (j < List.length (valued m df))%nat) l ->
  take df (List.map (fun j => nth j (non_nan_idx (List.map (column m) df)) O) l) =
  take (valued m df) l.
Proof using Type.
  unfold take. induction 1 as [|j l Hj _ IH]; [reflexivity |].
  cbn. cbn in IH. rewrite sorted_rows_lookup by assumption. now rewrite IH.
Qed.

Lemma sorted_part_values_in (l : list nat) :
  Forall (fun j => (j < List.length (valued m df))%nat) l ->
  List.map (column m) (take (valued m df) l) =
  List.map Some (List.map (fun j => nth j (dropna (List.map (column m) df)) 0) l).
Proof using Type.
  unfold take. induction 1 as [|j l Hj _ IH]; [reflexivity |].
  cbn. cbn in IH. destruct (valued m df !! j) as [g|] eqn:Eg.
  - cbn. rewrite IH. f_equal.
    assert (H := f_equal (fun l => nth j l None) valued_values). simpl in H.
    rewrite (nth_indep _ None (column m g)) in H by (rewrite length_map; lia).
    rewrite (map_nth (column m)) in H.
    apply nth_lookup_Some with (d := g) in Eg. rewrite Eg in H. rewrite H.
    rewrite (nth_indep _ None (Some 0))
      by (rewrite length_map, <- valued_length; lia).
    apply (map_nth Some).
  - apply lookup_ge_None in Eg. lia.
Qed.

Hypothesis Horder : is_argsort (dropna (List.map (column m) df)) order.

Lemma order_in_range :
  Forall (fun j => (j < List.length (valued m df))%nat) order.
Proof using Horder.
  destruct Horder as [Hperm _]. rewrite List.Forall_forall. intros j Hj.
  rewrite valued_length. apply (Permutation_in _ Hperm) in Hj.
  apply in_seq in Hj. lia.
Qed.

Lemma sorted_part_perm : Permutation (take (valued m df) order) (valued m df).
Proof using Horder.
  destruct Horder as [Hperm _]. rewrite <- valued_length in Hperm.
  rewrite (take_perm (valued m df) _ _ Hperm), take_seq. reflexivity.
Qed.

Lemma sorted_part_values :
  List.map (column m) (take (valued m df) order) =
  List.map Some
    (List.map (fun j => nth j (dropna (List.map (column m) df)) 0) order).
Proof using Horder. apply sorted_part_values_in, order_in_range. Qed.

(** The sorted frame: the rows with a number in the order the argsort
    gave, then the rows with NaN as they stood. *)
Lemma sort_values_split :
  sort_values order m df = take (valued m df) order ++ unvalued m df.
Proof using Horder.
  unfold sort_values, nargsort. rewrite take_app.
  f_equal; [apply sorted_part_rows_in, order_in_range | apply nan_rows].
Qed.

End SortValues.

Lemma skew_two_nan_iff x y :
  skew [x; y] = SkewNaN <->
  (x - y) * (x - y) <= (resolution * (x + y)) * (resolution * (x + y)).
Proof.
  assert (H2 : moment 2 [x; y] (np_mean [x; y]) == (1 # 4) * ((x - y) * (x - y))).
  { unfold moment, np_mean, Qsum. simpl. field. }
  assert (Hb : Qpower_positive (resolution * np_mean [x; y]) 2 ==
               (1 # 4) * ((resolution * (x + y)) * (resolution * (x + y)))).
  { unfold np_mean, Qsum. simpl. field. }
  set (a := (x - y) * (x - y)) in *.
  set (b := (resolution * (x + y)) * (resolution * (x + y))) in *.
  clearbody a b.
  unfold skew. destruct (Qle_bool _ _) eqn:E.
  - split; [intros _ | reflexivity].
    apply Qle_bool_iff in E. rewrite H2, Hb in E. lra.
  - split; [discriminate |]. intros H. exfalso.
    assert (E' : moment 2 [x; y] (np_mean [x; y]) <=
                 Qpower_positive (resolution * np_mean [x; y]) 2).
    { rewrite H2, Hb. lra. }
    apply Qle_bool_iff in E'. congruence.
Qed.

Lemma small_sample_skew_holds vs : small_sample_skew vs (skew vs).
Proof.
  destruct vs as [|x [|y [|z vs]]]; simpl small_sample_skew.
  - reflexivity.
  - apply skew_one.
  - split; [apply skew_two_nan_iff | apply skew_two].
  - exact I.
Qed.

(** * The claims *)



(** C3.  The filtering step reads the material as a pattern: a name with
    parentheses in it fails to select the record whose description holds
    it, an unclosed parenthesis raises, and a dot selects a record that
    does not hold the name.  What the claim says holds for names without
    special characters, records without description included. *)
Theorem C3_filter_reads_material_as_pattern :
  (filter_material glazed "tile (glazed)" = Ret [] /\
   spec_filter glazed "tile (glazed)" = glazed) /\
  (filter_material sheet "(" = Raise (re_error "missing ), unterminated subpattern") /\
   spec_filter sheet "(" = []) /\
  (exists r, filter_material sheet "gr.n" = Ret [r] /\ spec_filter sheet "gr.n" = []) /\
  (forall df material, no_special material = true ->
     filter_material df material = Ret (spec_filter df material)) /\
  (exists r, filter_material sheet "vitrified" = Ret [r] /\
             Material_description r = Some "Vitrified Tile"%string).
Proof.
  split; [split; vm_compute; reflexivity |].
  split; [split; vm_compute; reflexivity |].
  split; [eexists; split; vm_compute; reflexivity |].
  split; [exact filter_material_literal |].
  eexists; split; vm_compute; reflexivity.
Qed.

(** C4, as the code has it.  [combine] emits one row for each entry of the
    primary list that has a dictionary, in order, and none for the others.
    A row adds the two medians when the mapped secondary has a dictionary
    and otherwise holds the primary's medians alone; its Secondary field is
    the mapped name whenever one is mapped, and ["None"] only when the
    primary is mapped to nothing. *)
Theorem C4_combine_rows primary_materials mapping results :
  List.map Primary (combine primary_materials mapping results) =
    List.filter (fun p => bool_decide (is_Some (results !! p))) primary_materials /\
  Forall (row_ok mapping results) (combine primary_materials mapping results).
Proof.
  split; [apply combine_primaries |].
  rewrite List.Forall_forall. intros r Hr.
  apply (combine_rows primary_materials mapping results r Hr).
Qed.

(** C4 fails as stated: marble is mapped to grout, grout has no dictionary,
    and the row's Secondary field is ["grout"], not ["None"]. *)
Lemma C4_counterexample :
  let results : gmap string analysis := {[ "marble"%string := marble_res ]} in
  let mapping : gmap string string := {[ "marble"%string := "grout"%string ]} in
  results !! "grout"%string = None /\
  exists r, combine ["marble"%string] mapping results = [r] /\
            Combined_EE r = Some 50 /\ Secondary r = "grout"%string /\
            Secondary r <> "None"%string.
Proof.
  cbv zeta. split; [reflexivity |].
  eexists. split; [vm_compute; reflexivity |].
  simpl. repeat split. discriminate.
Qed.







(** C7.  When the filtering step selects records, [perform_analysis]
    returns a dictionary; a metric without any non-null value among them
    has NaN for its skewness and for its median, and so has the median of
    a metric of which the trimming keeps no value. *)
Theorem C7_no_value_gives_nan df material mat_df :
  filter_material df material = Ret mat_df -> mat_df <> [] ->
  exists s, perform_analysis df material = Ret (Some s) /\ data s = mat_df /\
    (dropna (List.map Embodied_Energy mat_df) = [] ->
       skew_ee s = SkewNaN /\ median_ee s = NaN) /\
    (dropna (List.map Embodied_Carbon mat_df) = [] ->
       skew_ec s = SkewNaN /\ median_ec s = NaN) /\
    (dropna (iqr_clean (List.map Embodied_Energy mat_df)) = [] -> median_ee s = NaN) /\
    (dropna (iqr_clean (List.map Embodied_Carbon mat_df)) = [] -> median_ec s = NaN).
Proof.
  intros Hf Hne. exists (summary_of mat_df).
  split; [now apply perform_analysis_matched |].
  split; [reflexivity |]. simpl.
  split; [| split; [| split]].
  - intros H. rewrite H. split; [reflexivity | now apply trimmed_median_all_null].
  - intros H. rewrite H. split; [reflexivity | now apply trimmed_median_all_null].
  - apply median_empty.
  - apply median_empty.
Qed.

(** C7 applied to the six tiles, none of which has an Embodied Carbon
    value. *)
Lemma C7_witness :
  filter_material tiles "vitrified" = Ret tiles /\ tiles <> [] /\
  dropna (List.map Embodied_Carbon tiles) = [] /\
  exists s, perform_analysis tiles "vitrified" = Ret (Some s) /\
            skew_ec s = SkewNaN /\ median_ec s = NaN.
Proof.
  assert (H : filter_material tiles "vitrified" = Ret tiles)
    by (vm_compute; reflexivity).
  assert (Hne : tiles <> []) by discriminate.
  split; [exact H |]. split; [exact Hne |]. split; [reflexivity |].
  destruct (C7_no_value_gives_nan tiles "vitrified" tiles H Hne)
    as (s & Hs & _ & _ & Hec & _).
  exists s. split; [exact Hs |]. apply Hec. reflexivity.
Defined.



(** C9.  The material is compiled as a regular expression: an unclosed
    parenthesis or a leading star raises [re.error] on every frame, a dot
    selects a record that does not hold the name, and a name with
    parentheses misses the record that holds it. *)
Theorem C9_material_is_a_pattern :
  (forall df, perform_analysis df "(" =
              Raise (re_error "missing ), unterminated subpattern")) /\
  (forall df, perform_analysis df "*" = Raise (re_error "nothing to repeat")) /\
  (exists s, no_special "gr.n" = false /\
             perform_analysis sheet "gr.n" = Ret (Some s) /\
             data s <> [] /\ spec_filter sheet "gr.n" = []) /\
  (no_special "tile (glazed)" = false /\
   perform_analysis glazed "tile (glazed)" = Ret None /\
   spec_filter glazed "tile (glazed)" = glazed).
Proof.
  split; [reflexivity |]. split; [reflexivity |]. split.
  - eexists. split; [reflexivity |]. split; [vm_compute; reflexivity |].
    split; [discriminate | vm_compute; reflexivity].
  - split; [reflexivity |]. split; vm_compute; reflexivity.
Qed.



(** * Further properties of the page *)

(** ** Splitting and stripping the primary materials box *)

Lemma lstrip_head s :
  lstrip s = EmptyString \/
  exists c t, lstrip s = String c t /\ isspace c = false.
Proof.
  induction s as [|c s IH]; simpl; [now left |].
  destruct (isspace c) eqn:E; [exact IH | right; eauto].
Qed.

Lemma rstrip_head c t :
  isspace c = false -> exists r, rstrip (String c t) = String c r.
Proof. intros E. simpl. rewrite E. destruct (rstrip t); eauto. Qed.

Lemma rstrip_idem s : rstrip (rstrip s) = rstrip s.
Proof.
  induction s as [|c s IH]; [reflexivity |].
  simpl. destruct (rstrip s) as [|d r] eqn:Er.
  - destruct (isspace c) eqn:E; [reflexivity |]. simpl. now rewrite E.
  - simpl. simpl in IH. destruct (rstrip r) as [|e r'] eqn:Er'.
    + destruct (isspace d); [discriminate IH | now rewrite IH].
    + now rewrite IH.
Qed.

Lemma strip_idem s : strip (strip s) = strip s.
Proof.
  unfold strip. destruct (lstrip_head s) as [E | (c & t & E & Hc)]; rewrite E.
  - reflexivity.
  - destruct (rstrip_head c t Hc) as [r Er]. rewrite Er.
    simpl lstrip. rewrite Hc, <- Er. apply rstrip_idem.
Qed.

Lemma has_comma_lstrip s : has_comma (lstrip s) = true -> has_comma s = true.
Proof.
  induction s as [|c s IH]; simpl; [discriminate |].
  destruct (isspace c); [| exact (fun H => H)].
  intros H. rewrite (IH H). apply orb_true_r.
Qed.

Lemma has_comma_rstrip s : has_comma (rstrip s) = true -> has_comma s = true.
Proof.
  induction s as [|c s IH]; simpl; [discriminate |].
  destruct (rstrip s) as [|d r].
  - destruct (isspace c); simpl; [discriminate |].
    rewrite orb_false_r. intros ->. reflexivity.
  - simpl in *. intros H. apply orb_true_iff in H. destruct H as [H|H].
    + now rewrite H.
    + rewrite (IH H). apply orb_true_r.
Qed.

Lemma has_comma_strip s : has_comma s = false -> has_comma (strip s) = false.
Proof.
  intros H. unfold strip. destruct (has_comma (rstrip (lstrip s))) eqn:E; [| reflexivity].
  apply has_comma_rstrip, has_comma_lstrip in E. congruence.
Qed.

Lemma split_comma_nonnil s : split_comma s <> [].
Proof.
  destruct s as [|c s]; simpl; [discriminate |].
  destruct (Ascii.eqb c ","); [discriminate |].
  destruct (split_comma s); discriminate.
Qed.

Lemma split_comma_pieces s : Forall (fun m => has_comma m = false) (split_comma s).
Proof.
  induction s as [|c s IH]; simpl; [now repeat constructor |].
  destruct (Ascii.eqb c ",") eqn:E; [now constructor |].
  destruct (split_comma s) as [|h t]; [repeat constructor; simpl; now rewrite E |].
  inversion IH; subst. constructor; [simpl; now rewrite E | assumption].
Qed.

Lemma split_comma_app a b :
  split_comma (String.append a (String "," b)) = split_comma a ++ split_comma b.
Proof.
  induction a as [|c a IH]; [reflexivity |].
  rewrite append_cons. simpl. destruct (Ascii.eqb c ","); [now rewrite IH |].
  rewrite IH. pose proof (split_comma_nonnil a) as Hne.
  destruct (split_comma a); [contradiction | reflexivity].
Qed.

Lemma split_comma_whole s : has_comma s = false -> split_comma s = [s].
Proof.
  induction s as [|c s IH]; [reflexivity |].
  simpl. intros H. apply orb_false_iff in H. destruct H as [Hc Hs].
  rewrite Hc, (IH Hs). reflexivity.
Qed.

(** X1.  Every name read from the primary materials box is non-empty, is
    left as it is by another [strip] (no whitespace at either end) and
    holds no comma; the page's default text gives its eleven names. *)
Theorem X1_parsed_names_are_clean primary_input :
  Forall (fun m => m <> EmptyString /\ strip m = m /\ has_comma m = false)
         (parse_primary_input primary_input) /\
  parse_primary_input default_primary_input =
    ["vitrified"; "vitrified 20mm"; "granite"; "marble"; "terrazzo";
     "engineered wood"; "grout"; "epoxy grout"; "adhesive"; "mortar";
     "screed sheets"]%string.
Proof.
  split; [| reflexivity].
  unfold parse_primary_input. rewrite List.Forall_forall. intros m Hm.
  apply in_map_iff in Hm. destruct Hm as (p & <- & Hp).
  apply filter_In in Hp. destruct Hp as [Hp Hne].
  split; [| split].
  - intros E. rewrite E in Hne. discriminate.
  - apply strip_idem.
  - apply has_comma_strip.
    pose proof (split_comma_pieces primary_input) as Hall.
    rewrite List.Forall_forall in Hall. now apply Hall.
Qed.

(** X2.  Reading the box distributes over its commas: the names of
    [a,b] are those of [a] followed by those of [b]; a text without comma
    gives its stripped self, or nothing when that is empty.  So blank
    entries and doubled commas add no name. *)
Theorem X2_parse_by_commas :
  (forall a b,
      parse_primary_input (String.append a (String "," b)) =
      parse_primary_input a ++ parse_primary_input b) /\
  (forall s, has_comma s = false ->
      parse_primary_input s =
      if nonempty (strip s) then [strip s] else []) /\
  parse_primary_input EmptyString = [] /\
  parse_primary_input " , ,granite ,, marble" = ["granite"; "marble"]%string.
Proof.
  split; [| split; [| split; reflexivity]].
  - intros a b. unfold parse_primary_input.
    now rewrite split_comma_app, List.filter_app, List.map_app.
  - intros s Hs. unfold parse_primary_input. rewrite (split_comma_whole s Hs).
    simpl. destruct (nonempty (strip s)); reflexivity.
Qed.

(** ** Secondary materials and the mapping *)

Lemma collect_secondary_snoc entries entry :
  collect_secondary (entries ++ [entry]) =
  secondary_step (collect_secondary entries) entry.
Proof. unfold collect_secondary. now rewrite fold_left_app. Qed.

Lemma last_purpose_snoc k entries n p :
  last_purpose k (entries ++ [(n, p)]) =
  if decide (n = k) then Some p else last_purpose k entries.
Proof.
  induction entries as [|[n' p'] entries IH]; simpl.
  - reflexivity.
  - rewrite IH. destruct (decide (n = k)); [reflexivity |].
    reflexivity.
Qed.

Lemma collect_secondary_lookup entries k :
  collect_secondary entries !! k =
  if nonempty k then last_purpose k entries else None.
Proof.
  induction entries as [|[n p] entries IH] using rev_ind.
  - unfold collect_secondary. simpl. rewrite lookup_empty.
    destruct (nonempty k); reflexivity.
  - rewrite collect_secondary_snoc, last_purpose_snoc. unfold secondary_step.
    destruct (nonempty n) eqn:En.
    + destruct (decide (n = k)) as [->|Hne].
      * rewrite lookup_insert_eq, En. reflexivity.
      * rewrite lookup_insert_ne by assumption. exact IH.
    + rewrite IH. destruct (decide (n = k)) as [->|Hne]; [| reflexivity].
      rewrite En. reflexivity.
Qed.

Lemma collect_secondary_size entries :
  (size (collect_secondary entries) <= List.length entries)%nat.
Proof.
  induction entries as [|[n p] entries IH] using rev_ind.
  - unfold collect_secondary. simpl. rewrite map_size_empty. lia.
  - rewrite collect_secondary_snoc, length_app. simpl. unfold secondary_step.
    destruct (nonempty n); [| lia].
    rewrite map_size_insert.
    destruct (collect_secondary entries !! n); unfold id; lia.
Qed.

(** X3.  After the loop over the secondary material rows, a name is a key
    of [secondary_materials] exactly when it is non-empty and was typed in
    some row, its value is the purpose of the last row that names it, and
    there are no more keys than rows; in particular no key is empty. *)
Theorem X3_secondary_materials_collected entries :
  (forall k, collect_secondary entries !! k =
             if nonempty k then last_purpose k entries else None) /\
  collect_secondary entries !! EmptyString = None /\
  (size (collect_secondary entries) <= List.length entries)%nat.
Proof.
  split; [apply collect_secondary_lookup |].
  split; [apply (collect_secondary_lookup entries EmptyString) |].
  apply collect_secondary_size.
Qed.

Lemma fold_insert_lookup (f : string -> string) ps (m0 : gmap string string) q :
  fold_left (fun m p => <[p := f p]> m) ps m0 !! q =
  if decide (q ∈ ps) then Some (f q) else m0 !! q.
Proof.
  revert m0. induction ps as [|p ps IH]; intros m0; simpl.
  - destruct (decide (q ∈ [])) as [H|]; [inversion H | reflexivity].
  - rewrite IH. destruct (decide (q ∈ ps)) as [Hin|Hnin].
    + rewrite decide_True; [reflexivity | now right].
    + destruct (decide (p = q)) as [->|Hne].
      * rewrite lookup_insert_eq, decide_True; [reflexivity | now left].
      * rewrite lookup_insert_ne by assumption.
        rewrite decide_False; [reflexivity |].
        intros H. apply elem_of_cons in H. destruct H; congruence.
Qed.

Lemma build_mapping_lookup selectbox primary_materials
    (secondary_materials : gmap string string) p :
  build_mapping selectbox primary_materials secondary_materials !! p =
  if decide (secondary_materials = ∅) then None
  else if decide (p ∈ primary_materials) then Some (selectbox p) else None.
Proof.
  unfold build_mapping. destruct (decide (secondary_materials = ∅)).
  - apply lookup_empty.
  - rewrite fold_insert_lookup, lookup_empty. reflexivity.
Qed.


(** ** The loop over all materials *)

Lemma analysis_fold_raise df mats e :
  fold_left (analysis_step df) mats (Raise e) = Raise e.
Proof. induction mats as [|m mats IH]; [reflexivity | exact IH]. Qed.

Lemma analysis_fold_unmodelled df mats :
  fold_left (analysis_step df) mats Unmodelled = Unmodelled.
Proof. induction mats as [|m mats IH]; [reflexivity | exact IH]. Qed.

Lemma analysis_fold_ret df mats (m0 results : gmap string analysis) :
  fold_left (analysis_step df) mats (Ret m0) = Ret results ->
  Forall (returns df) mats /\
  forall k, results !! k =
            if decide (k ∈ mats)
            then match stored df k with Some s => Some s | None => m0 !! k end
            else m0 !! k.
Proof.
  revert m0. induction mats as [|m mats IH]; intros m0 H; simpl in H.
  - injection H as <-. split; [constructor |]. intros k.
    rewrite decide_False; [reflexivity | apply not_elem_of_nil].
  - destruct (perform_analysis df m) as [[r|]| |] eqn:Em.
    + destruct (IH _ H) as [Hall Hk]. split.
      { constructor; [eexists; exact Em | exact Hall]. }
      intros k. rewrite Hk. unfold stored.
      destruct (decide (k ∈ mats)) as [Hin|Hnin].
      * rewrite decide_True by now right.
        destruct (perform_analysis df k) as [[s|]| |] eqn:Ek; try reflexivity;
          destruct (decide (m = k)) as [->|Hne];
          try (rewrite lookup_insert_ne by assumption; reflexivity);
          congruence.
      * destruct (decide (m = k)) as [->|Hne].
        -- rewrite lookup_insert_eq, decide_True by now left. now rewrite Em.
        -- rewrite lookup_insert_ne by assumption.
           rewrite decide_False; [reflexivity |].
           intros Hc. apply elem_of_cons in Hc. destruct Hc; congruence.
    + destruct (IH _ H) as [Hall Hk]. split.
      { constructor; [eexists; exact Em | exact Hall]. }
      intros k. rewrite Hk. unfold stored.
      destruct (decide (k ∈ mats)) as [Hin|Hnin].
      * rewrite decide_True by now right. reflexivity.
      * destruct (decide (m = k)) as [->|Hne].
        -- rewrite decide_True by now left. now rewrite Em.
        -- rewrite decide_False; [reflexivity |].
           intros Hc. apply elem_of_cons in Hc. destruct Hc; congruence.
    + rewrite analysis_fold_raise in H. discriminate.
    + rewrite analysis_fold_unmodelled in H. discriminate.
Qed.

Lemma analysis_fold_returns df mats (m0 : gmap string analysis) :
  Forall (returns df) mats ->
  exists results, fold_left (analysis_step df) mats (Ret m0) = Ret results.
Proof.
  intros Hall. revert m0. induction Hall as [|m mats [o Ho] _ IH]; intros m0.
  - eexists. reflexivity.
  - simpl. rewrite Ho. destruct o; apply IH.
Qed.

Lemma analyse_all_lookup df mats results :
  analyse_all df mats = Ret results ->
  Forall (returns df) mats /\
  forall k, results !! k = if decide (k ∈ mats) then stored df k else None.
Proof.
  intros H. apply analysis_fold_ret in H. destruct H as [Hall Hk].
  split; [exact Hall |]. intros k. rewrite Hk, lookup_empty.
  destruct (decide (k ∈ mats)); [| reflexivity]. destruct (stored df k); reflexivity.
Qed.

Lemma stored_some df m s :
  stored df m = Some s <-> perform_analysis df m = Ret (Some s).
Proof.
  unfold stored. destruct (perform_analysis df m) as [[r|]| |];
    split; intros H; try discriminate H; congruence.
Qed.

(** X5.  When the loop over [all_materials] runs to its end,
    [analysis_results] holds a dictionary for a name exactly when the name
    was among the materials and [perform_analysis] returned that
    dictionary; names that select no record have no entry, and every
    dictionary stored carries the records its name selects, at least one. *)
Theorem X5_analysis_results_content df all_materials analysis_results :
  analyse_all df all_materials = Ret analysis_results ->
  (forall m s, analysis_results !! m = Some s <->
               m ∈ all_materials /\ perform_analysis df m = Ret (Some s)) /\
  (forall m, m ∈ all_materials -> perform_analysis df m = Ret None ->
             analysis_results !! m = None) /\
  (forall m s, analysis_results !! m = Some s ->
               filter_material df m = Ret (data s) /\ data s <> []).
Proof.
  intros H. apply analyse_all_lookup in H. destruct H as [_ Hk].
  assert (H1 : forall m s, analysis_results !! m = Some s <->
               m ∈ all_materials /\ perform_analysis df m = Ret (Some s)).
  { intros m s. rewrite Hk, <- stored_some.
    destruct (decide (m ∈ all_materials)) as [Hin|Hnin].
    - split; [intros H; split; assumption | intros [_ H]; exact H].
    - split; [discriminate | intros [H _]; contradiction]. }
  split; [exact H1 |]. split.
  - intros m Hin Hm. rewrite Hk, decide_True by assumption.
    unfold stored. now rewrite Hm.
  - intros m s Hs. apply H1 in Hs. destruct Hs as [_ Hs].
    apply perform_analysis_some in Hs. tauto.
Qed.

(** X6.  The loop has no handler: it runs to its end exactly when
    [perform_analysis] returns for every material, so one name that raises
    (an unclosed parenthesis, say) leaves no result for any material, and
    no comparison row. *)
Theorem X6_one_bad_name_aborts df primary_materials mapping all_materials :
  ((exists analysis_results, analyse_all df all_materials = Ret analysis_results) <->
   Forall (returns df) all_materials) /\
  (forall m e, m ∈ all_materials -> perform_analysis df m = Raise e ->
     (forall analysis_results, analyse_all df all_materials <> Ret analysis_results) /\
     (forall rows, analyze_data df primary_materials mapping all_materials <> Ret rows)).
Proof.
  assert (Hiff : (exists r, analyse_all df all_materials = Ret r) <->
                 Forall (returns df) all_materials).
  { split.
    - intros [r Hr]. apply analyse_all_lookup in Hr. tauto.
    - apply analysis_fold_returns. }
  split; [exact Hiff |].
  intros m e Hin Hm.
  assert (Hno : forall r, analyse_all df all_materials <> Ret r).
  { intros r Hr. assert (Hall : Forall (returns df) all_materials).
    { apply Hiff. eauto. }
    rewrite Forall_forall in Hall. destruct (Hall m Hin) as [o Ho]. congruence. }
  split; [exact Hno |].
  intros rows. unfold analyze_data.
  destruct (analyse_all df all_materials) as [r| |] eqn:E; try discriminate.
  destruct (Hno r). reflexivity.
Qed.

(** X7.  The materials are walked in the order a Python set gives them,
    which is not fixed; the dictionaries collected do not depend on it, nor
    on a name occurring twice: two lists with the same names give the same
    [analysis_results]. *)
Theorem X7_results_independent_of_order df mats mats' analysis_results :
  (forall m, m ∈ mats <-> m ∈ mats') ->
  analyse_all df mats = Ret analysis_results ->
  analyse_all df mats' = Ret analysis_results.
Proof.
  intros Hsame H. apply analyse_all_lookup in H. destruct H as [Hall Hk].
  assert (Hall' : Forall (returns df) mats').
  { rewrite Forall_forall in *. intros m Hm. apply Hall, Hsame, Hm. }
  destruct (analysis_fold_returns df mats' ∅ Hall') as [r' Hr'].
  fold (analyse_all df mats') in Hr'. rewrite Hr'. f_equal.
  apply analyse_all_lookup in Hr'. destruct Hr' as [_ Hk'].
  apply map_eq. intros k. rewrite Hk, Hk'.
  destruct (decide (k ∈ mats)) as [Hin|Hnin], (decide (k ∈ mats')) as [Hin'|Hnin'];
    try reflexivity; exfalso.
  - apply Hnin', Hsame, Hin.
  - apply Hnin, Hsame, Hin'.
Qed.

(** X8.  From the sheet to the comparison: when the button's computation
    returns and the materials walked cover the primaries and the mapped
    secondaries, there is one row per primary that selects records, in the
    order of the primary list, and each row holds the trimmed medians of
    its primary, added to those of its mapped secondary when that one
    selects records too. *)
Theorem X8_rows_from_the_sheet df primary_materials mapping all_materials rows :
  analyze_data df primary_materials mapping all_materials = Ret rows ->
  (forall p, p ∈ primary_materials -> p ∈ all_materials) ->
  (forall p sec, mapping !! p = Some sec -> sec ∈ all_materials) ->
  List.map Primary rows =
    List.filter (fun p => bool_decide (is_Some (stored df p))) primary_materials /\
  Forall (row_from_sheet df mapping) rows.
Proof.
  unfold analyze_data. intros H Hprim Hsec.
  destruct (analyse_all df all_materials) as [results| |] eqn:E; try discriminate.
  injection H as <-. apply analyse_all_lookup in E. destruct E as [Hall Hk].
  split.
  - rewrite combine_primaries. apply filter_ext_in. intros p Hp.
    apply list_elem_of_In in Hp. rewrite Hk, decide_True by now apply Hprim.
    reflexivity.
  - rewrite List.Forall_forall. intros r Hr.
    apply combine_rows in Hr. destruct Hr as [Hp (s & Hs & Hrow)].
    exists s. split.
    { rewrite Hk in Hs. destruct (decide (Primary r ∈ all_materials)); [| discriminate].
      now apply stored_some. }
    destruct (truthy (mapping !! Primary r)) as [sec|] eqn:Et; [| exact Hrow].
    destruct Hrow as [Hname Hrow]. split; [exact Hname |].
    assert (Hin : sec ∈ all_materials).
    { apply (Hsec (Primary r)). unfold truthy in Et.
      destruct (mapping !! Primary r) as [[|c t]|]; congruence. }
    rewrite Forall_forall in Hall. destruct (Hall sec Hin) as [o Ho].
    exists o. split; [exact Ho |].
    rewrite Hk, decide_True in Hrow by assumption.
    unfold stored in Hrow. rewrite Ho in Hrow. destruct o; exact Hrow.
Qed.

(** ** More on the filtering step *)

Lemma getitem_mask_sublist {A : Type} (l : list A) (mask : list bool) :
  sublist (getitem_mask l mask) l.
Proof.
  revert mask. induction l as [|x l IH]; intros mask; simpl.
  - destruct mask; constructor.
  - destruct mask as [|b mask]; [apply sublist_nil_l |].
    destruct b; [apply sublist_skip | apply sublist_cons]; apply IH.
Qed.

(** X9.  Whatever the material, the records the filtering step selects
    are records of the sheet, in the order of the sheet, and each has a
    description: a record without description is never selected. *)
Theorem X9_selected_records df material mat_df :
  filter_material df material = Ret mat_df ->
  sublist mat_df df /\
  Forall (fun r => is_Some (Material_description r)) mat_df.
Proof.
  unfold filter_material, str_contains.
  destruct (re_compile material) as [r| |]; try discriminate.
  intros [= <-]. split; [apply getitem_mask_sublist |].
  rewrite List.map_map, getitem_mask_map, List.Forall_forall.
  intros x Hx. apply filter_In in Hx. destruct Hx as [_ Hx].
  destruct (Material_description x); [eexists; reflexivity | discriminate].
Qed.

Lemma eqb_ic_trans a b c :
  eqb_ic a b = true -> eqb_ic b c = true -> eqb_ic a c = true.
Proof.
  unfold eqb_ic. rewrite !Ascii.eqb_eq. congruence.
Qed.

Lemma eqb_ic_sym a b : eqb_ic a b = eqb_ic b a.
Proof. unfold eqb_ic. apply Ascii.eqb_sym. Qed.

Lemma prefix_ic_trans p q s :
  prefix_ic p q = true -> prefix_ic q s = true -> prefix_ic p s = true.
Proof.
  revert q s. induction p as [|a p IH]; intros q s Hpq Hqs; [reflexivity |].
  destruct q as [|b q]; [discriminate |]. destruct s as [|c s]; [discriminate |].
  simpl in *. apply andb_prop in Hpq, Hqs.
  destruct Hpq as [Hba Hpq], Hqs as [Hcb Hqs].
  rewrite (eqb_ic_trans c b a Hcb Hba), (IH q s Hpq Hqs). reflexivity.
Qed.

Lemma icontains_prefix p s : prefix_ic p s = true -> icontains p s = true.
Proof. intros H. destruct s; simpl in *; rewrite H; reflexivity. Qed.

Lemma icontains_tail p c s : icontains p s = true -> icontains p (String c s) = true.
Proof. intros H. cbn [icontains]. rewrite H. apply orb_true_r. Qed.

Lemma icontains_in_prefix p q s :
  icontains p q = true -> prefix_ic q s = true -> icontains p s = true.
Proof.
  revert s. induction q as [|b q IH]; intros s Hpq Hqs.
  - cbn [icontains] in Hpq. rewrite orb_false_r in Hpq.
    apply icontains_prefix. eapply prefix_ic_trans; eassumption.
  - cbn [icontains] in Hpq. apply orb_prop in Hpq. destruct Hpq as [Hpq|Hpq].
    + apply icontains_prefix. eapply prefix_ic_trans; eassumption.
    + destruct s as [|c s]; [discriminate |]. simpl in Hqs.
      apply andb_prop in Hqs. destruct Hqs as [_ Hqs].
      apply icontains_tail, IH; assumption.
Qed.

Lemma icontains_trans p q s :
  icontains p q = true -> icontains q s = true -> icontains p s = true.
Proof.
  intros Hpq. induction s as [|c s IH]; intros Hqs.
  - cbn [icontains] in Hqs. rewrite orb_false_r in Hqs.
    eapply icontains_in_prefix; eassumption.
  - cbn [icontains] in Hqs. apply orb_prop in Hqs. destruct Hqs as [Hqs|Hqs].
    + eapply icontains_in_prefix; eassumption.
    + apply icontains_tail, IH, Hqs.
Qed.

Lemma filter_sublist_impl {A : Type} (f g : A -> bool) (l : list A) :
  (forall x, f x = true -> g x = true) ->
  sublist (List.filter f l) (List.filter g l).
Proof.
  intros Hfg. induction l as [|x l IH]; simpl; [constructor |].
  destruct (f x) eqn:Ef.
  - rewrite (Hfg x Ef). now apply sublist_skip.
  - destruct (g x); [now apply sublist_cons | exact IH].
Qed.


Lemma prefix_ic_eq_ic p q s : eq_ic p q = true -> prefix_ic p s = prefix_ic q s.
Proof.
  revert q s. induction p as [|a p IH]; intros [|b q] s H; try discriminate;
    [reflexivity |].
  simpl in H. apply andb_prop in H. destruct H as [Hab H].
  destruct s as [|c s]; [reflexivity |]. simpl. rewrite (IH q s H). f_equal.
  destruct (eqb_ic c a) eqn:Ea.
  - symmetry. exact (eqb_ic_trans c a b Ea Hab).
  - destruct (eqb_ic c b) eqn:Eb; [| reflexivity].
    rewrite eqb_ic_sym in Hab.
    rewrite (eqb_ic_trans c b a Eb Hab) in Ea. discriminate.
Qed.

Lemma icontains_eq_ic p q s : eq_ic p q = true -> icontains p s = icontains q s.
Proof.
  intros H. induction s as [|c s IH]; cbn [icontains];
    rewrite (prefix_ic_eq_ic p q _ H); [reflexivity | now rewrite IH].
Qed.

(** X11.  The case of the material does not matter: two names without
    special characters that differ by case only select the same records
    and get the same result from [perform_analysis]. *)
Theorem X11_case_of_material_is_ignored df p q :
  no_special p = true -> no_special q = true -> eq_ic p q = true ->
  filter_material df p = filter_material df q /\
  perform_analysis df p = perform_analysis df q.
Proof.
  intros Hp Hq H.
  assert (E : filter_material df p = filter_material df q).
  { rewrite !filter_material_literal by assumption. f_equal.
    apply filter_ext. intros r. destruct (Material_description r); [| reflexivity].
    now apply icontains_eq_ic. }
  split; [exact E |]. now rewrite !perform_analysis_cases, E.
Qed.

(** ** Where the quartiles and the representative value lie *)

Lemma in_dropna_iff v (s : list float64) : In v (dropna s) <-> In (Some v) s.
Proof.
  induction s as [|[x|] s IH]; simpl.
  - tauto.
  - rewrite IH. split; intros [H|H]; auto; left; congruence.
  - rewrite IH. split; [auto | intros [H|H]; [discriminate | assumption]].
Qed.

Lemma in_np_sort v l : In v (np_sort l) <-> In v l.
Proof.
  split; apply Permutation_in; [| symmetry]; apply np_sort_perm.
Qed.

Lemma median_between s m :
  median s = Some m ->
  exists a b, In a (dropna s) /\ In b (dropna s) /\ a <= m /\ m <= b.
Proof.
  unfold median. destruct (np_sort (dropna s)) as [|d t] eqn:E; [discriminate |].
  assert (Hs : StronglySorted Qle (d :: t)) by (rewrite <- E; apply np_sort_sorted).
  assert (Hin : forall v, In v (d :: t) -> In v (dropna s)).
  { intros v Hv. apply in_np_sort. now rewrite E. }
  remember (d :: t) as vs eqn:Evs.
  assert (Hn : (1 <= List.length vs)%nat) by (subst vs; simpl; lia).
  clear Evs E. remember (List.length vs) as n eqn:En. cbv zeta.
  assert (Hhalf : (n / 2 < n)%nat) by (apply Nat.div_lt; lia).
  destruct (Nat.even n).
  - set (a := nth (n / 2 - 1) vs d). set (b := nth (n / 2) vs d).
    assert (Hle : a <= b).
    { apply sorted_nth_le; [assumption | lia | lia]. }
    assert (Ha : In a (dropna s)) by (apply Hin, nth_In; lia).
    assert (Hb : In b (dropna s)) by (apply Hin, nth_In; lia).
    clearbody a b. intros H. injection H as Hm.
    exists a, b. split; [exact Ha |]. split; [exact Hb |]. rewrite <- Hm.
    split; [apply Qle_shift_div_l | apply Qle_shift_div_r]; lra.
  - set (a := nth (n / 2) vs d).
    assert (Ha : In a (dropna s)) by (apply Hin, nth_In; lia).
    clearbody a. intros H. injection H as Hm.
    exists a, a. split; [exact Ha |]. split; [exact Ha |]. rewrite <- Hm.
    split; lra.
Qed.

Lemma quartiles_in_data col d t :
  np_sort (dropna col) = d :: t ->
  let Q1 := percentile_linear (d :: t) d (1 # 4) in
  let Q3 := percentile_linear (d :: t) d (3 # 4) in
  exists a b, In (Some a) col /\ In (Some b) col /\ a <= Q1 /\ Q1 <= Q3 /\ Q3 <= b.
Proof.
  intros E Q1 Q3.
  assert (Hs : StronglySorted Qle (d :: t)) by (rewrite <- E; apply np_sort_sorted).
  assert (Hne : d :: t <> []) by discriminate.
  assert (Hin : forall v, In v (d :: t) -> In (Some v) col).
  { intros v Hv. apply in_dropna_iff, in_np_sort. now rewrite E. }
  destruct (iqr_window_inhabited (d :: t) d Hs Hne) as [Hiqr _].
  pose proof (percentile_bounds (d :: t) d (1 # 4) Hs Hne zero_le_quarter
                quarter_le_one) as [H1 _].
  pose proof (percentile_bounds (d :: t) d (3 # 4) Hs Hne zero_le_three_quarters
                three_quarters_le_one) as [_ H3].
  pose proof (floor_index_range _ (1 # 4) (last_index_nonneg _ Hne)
                zero_le_quarter quarter_le_one) as R1.
  pose proof (floor_index_range _ (3 # 4) (last_index_nonneg _ Hne)
                zero_le_three_quarters three_quarters_le_one) as R3.
  cbv zeta in H1, H3, Hiqr. fold Q1 Q3 in H1, H3, Hiqr.
  eexists _, _. split; [| split; [| split; [exact H1 | split; [exact Hiqr | exact H3]]]].
  - apply Hin, nth_In. lia.
  - apply Hin, nth_In. lia.
Qed.

(** X12.  A representative value [perform_analysis] returns is never
    outside the data: it lies between two Embodied Energy (or Carbon)
    values of the matched records, and inside the window
    [Q1 - 1.5 IQR, Q3 + 1.5 IQR] of that column. *)
Theorem X12_median_inside_data df material s :
  perform_analysis df material = Ret (Some s) ->
  (forall m, median_ee s = Some m ->
     inside_data_and_window (List.map Embodied_Energy (data s)) m) /\
  (forall m, median_ec s = Some m ->
     inside_data_and_window (List.map Embodied_Carbon (data s)) m).
Proof.
  intros Hs. apply perform_analysis_some in Hs. destruct Hs as (_ & _ & Hs).
  assert (Hcol : forall col m, trimmed_median col = Some m ->
                               inside_data_and_window col m).
  { intros col m Hm. unfold trimmed_median in Hm.
    apply median_between in Hm. destruct Hm as (a & b & Ha & Hb & Ham & Hmb).
    destruct (np_sort (dropna col)) as [|d t] eqn:E.
    { apply (proj1 (np_sort_nil _)) in E.
      rewrite (iqr_clean_all_null col E) in Ha. contradiction. }
    rewrite (iqr_clean_values col d t E), between_dropna in Ha, Hb.
    apply filter_In in Ha, Hb. destruct Ha as [Ha Hwa], Hb as [Hb Hwb].
    apply andb_prop in Hwa, Hwb. destruct Hwa as [Hwa _], Hwb as [_ Hwb].
    apply Qle_bool_iff in Hwa, Hwb. split.
    - exists a, b. rewrite <- !in_dropna_iff. tauto.
    - eexists _, _. unfold quantile. rewrite E.
      split; [reflexivity |]. split; [reflexivity |]. split; lra. }
  assert (Hee : median_ee s = trimmed_median (List.map Embodied_Energy (data s)))
    by (rewrite Hs at 1; reflexivity).
  assert (Hec : median_ec s = trimmed_median (List.map Embodied_Carbon (data s)))
    by (rewrite Hs at 1; reflexivity).
  split; intros m Hm; apply Hcol; congruence.
Qed.


(** ** Sorting without ties *)

Lemma strictly_sorted_unique (R : nat -> nat -> Prop) (l1 l2 : list nat) :
  (forall a b, R a b -> R b a -> False) ->
  StronglySorted R l1 -> StronglySorted R l2 -> Permutation l1 l2 -> l1 = l2.
Proof.
  intros Hasym H1. revert l2.
  induction H1 as [|a l1 H1 IH Ha]; intros l2 H2 Hp.
  - apply Permutation_nil in Hp. now subst.
  - destruct H2 as [|b l2 H2 Hb].
    { symmetry in Hp. apply Permutation_nil in Hp. discriminate. }
    assert (a = b) as <-.
    { destruct (Nat.eq_dec a b) as [E|Hne]; [exact E | exfalso].
      assert (Hin_a : In a l2).
      { assert (H : In a (b :: l2)) by (apply (Permutation_in _ Hp); now left).
        destruct H as [H|H]; [congruence | exact H]. }
      assert (Hin_b : In b l1).
      { assert (H : In b (a :: l1))
          by (apply (Permutation_in _ (Permutation_sym Hp)); now left).
        destruct H as [H|H]; [congruence | exact H]. }
      rewrite List.Forall_forall in Ha, Hb.
      exact (Hasym a b (Ha b Hin_b) (Hb a Hin_a)). }
    f_equal. apply IH; [exact H2 |]. eapply Permutation_cons_inv, Hp.
Qed.

Lemma argsort_strict xs order :
  no_ties xs -> is_argsort xs order ->
  StronglySorted (fun i j => nth i xs 0 < nth j xs 0) order.
Proof.
  intros Hties [Hperm Hsorted].
  assert (Hnd : List.NoDup order).
  { apply (Permutation_NoDup (Permutation_sym Hperm)), seq_NoDup. }
  assert (Hlt : Forall (fun i => (i < List.length xs)%nat) order).
  { rewrite List.Forall_forall. intros i Hi.
    apply (Permutation_in _ Hperm), in_seq in Hi. lia. }
  apply Sorted_StronglySorted in Hsorted; [| intros x y z; apply Qle_trans].
  clear Hperm. induction order as [|i order IH]; [constructor |].
  simpl in Hsorted. inversion Hsorted as [|? ? Hs' Hall]; subst.
  inversion Hnd as [|? ? Hni Hnd']; subst.
  inversion Hlt as [|? ? Hi Hlt']; subst.
  constructor; [now apply IH |].
  rewrite List.Forall_forall in *. intros j Hj.
  assert (Hle : nth i xs 0 <= nth j xs 0).
  { apply Hall, in_map_iff. eauto. }
  assert (Hne : ~ nth i xs 0 == nth j xs 0).
  { apply Hties; [assumption | now apply Hlt' |]. intros ->. contradiction. }
  apply Qle_lteq in Hle. tauto.
Qed.

(** X14.  The sort is not stable, but ties are all it leaves open: when no
    two rows have the same value in the column, every order the argsort
    may return is the same, and so is the sorted frame. *)
Theorem X14_sort_determined_without_ties m df order order' :
  no_ties (dropna (List.map (column m) df)) ->
  is_argsort (dropna (List.map (column m) df)) order ->
  is_argsort (dropna (List.map (column m) df)) order' ->
  order = order' /\ sort_values order m df = sort_values order' m df.
Proof.
  intros Hties H1 H2.
  assert (E : order = order').
  { apply (strictly_sorted_unique
             (fun i j => nth i (dropna (List.map (column m) df)) 0 <
                         nth j (dropna (List.map (column m) df)) 0)).
    - intros a b Hab Hba. lra.
    - now apply argsort_strict.
    - now apply argsort_strict.
    - destruct H1 as [P1 _], H2 as [P2 _]. now rewrite P1, P2. }
  split; [exact E | now rewrite E].
Qed.

(** ** The order of the rows *)

Lemma Forall2_Qeq_refl l : Forall2 Qeq l l.
Proof. induction l; constructor; [reflexivity | assumption]. Qed.

Lemma Forall2_Qeq_trans l1 l2 l3 :
  Forall2 Qeq l1 l2 -> Forall2 Qeq l2 l3 -> Forall2 Qeq l1 l3.
Proof.
  intros H. revert l3. induction H as [|a b l1 l2 Hab _ IH]; intros l3 H3.
  - exact H3.
  - inversion H3 as [|? c ? l3' Hbc H3']; subst.
    constructor; [now rewrite Hab | now apply IH].
Qed.

Lemma Qle_bool_Qeq x x' y y' :
  x == x' -> y == y' -> Qle_bool x y = Qle_bool x' y'.
Proof. intros Hx Hy. now rewrite Hx, Hy. Qed.

Lemma insert_sorted_Qeq x x' s s' :
  x == x' -> Forall2 Qeq s s' ->
  Forall2 Qeq (insert_sorted x s) (insert_sorted x' s').
Proof.
  intros Hx H. induction H as [|y y' s s' Hy Hs IH]; simpl.
  - now repeat constructor.
  - rewrite (Qle_bool_Qeq x x' y y' Hx Hy).
    destruct (Qle_bool x' y'); repeat (constructor; try assumption).
Qed.

Lemma Qle_bool_false x y : Qle_bool x y = false -> y < x.
Proof.
  intros H. destruct (Qlt_le_dec y x) as [Hlt|Hle]; [exact Hlt |].
  apply Qle_bool_iff in Hle. congruence.
Qed.

Lemma insert_sorted_comm x y s :
  Forall2 Qeq (insert_sorted x (insert_sorted y s))
              (insert_sorted y (insert_sorted x s)).
Proof.
  induction s as [|z s IH]; simpl.
  - destruct (Qle_bool x y) eqn:Exy, (Qle_bool y x) eqn:Eyx;
      try apply Qle_bool_iff in Exy; try apply Qle_bool_iff in Eyx;
      try apply Qle_bool_false in Exy; try apply Qle_bool_false in Eyx;
      repeat constructor; lra.
  - destruct (Qle_bool y z) eqn:Eyz, (Qle_bool x z) eqn:Exz; simpl;
      destruct (Qle_bool x y) eqn:Exy, (Qle_bool y x) eqn:Eyx;
      rewrite ?Eyz, ?Exz;
      try apply Qle_bool_iff in Exy; try apply Qle_bool_iff in Eyx;
      try apply Qle_bool_iff in Eyz; try apply Qle_bool_iff in Exz;
      try apply Qle_bool_false in Exy; try apply Qle_bool_false in Eyx;
      try apply Qle_bool_false in Eyz; try apply Qle_bool_false in Exz;
      try (exfalso; lra);
      repeat (constructor; [lra |]);
      first [apply Forall2_Qeq_refl | exact IH].
Qed.

Lemma np_sort_permutation l l' :
  Permutation l l' -> Forall2 Qeq (np_sort l) (np_sort l').
Proof.
  induction 1 as [|x l l' _ IH|x y l|l1 l2 l3 _ IH1 _ IH2].
  - constructor.
  - apply insert_sorted_Qeq; [reflexivity | exact IH].
  - apply insert_sorted_comm.
  - eapply Forall2_Qeq_trans; eassumption.
Qed.

Lemma nth_Qeq l l' d d' i :
  Forall2 Qeq l l' -> d == d' -> nth i l d == nth i l' d'.
Proof.
  intros H Hd. revert i. induction H as [|a b l l' Hab _ IH]; intros [|i]; simpl;
    try assumption. apply IH.
Qed.

Lemma lerp_Qeq a a' b b' t : a == a' -> b == b' -> lerp a b t == lerp a' b' t.
Proof. intros Ha Hb. rewrite !lerp_value, Ha, Hb. reflexivity. Qed.

Lemma dropna_permutation s s' :
  Permutation s s' -> Permutation (dropna s) (dropna s').
Proof.
  induction 1 as [|[x|] l l' _ IH|[x|] [y|] l|l1 l2 l3 _ IH1 _ IH2]; simpl;
    try reflexivity; try assumption.
  - now constructor.
  - apply perm_swap.
  - now transitivity (dropna l2).
Qed.

Lemma sorted_values_permutation s s' :
  Permutation s s' ->
  Forall2 Qeq (np_sort (dropna s)) (np_sort (dropna s')).
Proof. intros H. apply np_sort_permutation, dropna_permutation, H. Qed.

Lemma quantile_Qeq s s' q :
  Forall2 Qeq (np_sort (dropna s)) (np_sort (dropna s')) ->
  feq (quantile s q) (quantile s' q).
Proof.
  intros H. unfold quantile.
  assert (Hlen := Forall2_length _ _ _ H).
  destruct H as [|d d' t t' Hd Ht]; [exact I |].
  assert (H : Forall2 Qeq (d :: t) (d' :: t')) by now constructor.
  unfold feq, percentile_linear. rewrite <- Hlen.
  apply lerp_Qeq; now apply nth_Qeq.
Qed.

Lemma median_Qeq s s' :
  Forall2 Qeq (np_sort (dropna s)) (np_sort (dropna s')) ->
  feq (median s) (median s').
Proof.
  intros H. unfold median.
  assert (Hlen := Forall2_length _ _ _ H).
  destruct H as [|d d' t t' Hd Ht]; [exact I |].
  assert (H : Forall2 Qeq (d :: t) (d' :: t')) by now constructor.
  cbv zeta. rewrite <- Hlen.
  remember (List.length (d :: t)) as n eqn:En.
  destruct (Nat.even n); unfold feq.
  - rewrite (nth_Qeq _ _ d d' (n / 2 - 1) H Hd), (nth_Qeq _ _ d d' (n / 2) H Hd).
    reflexivity.
  - now apply nth_Qeq.
Qed.

Lemma fle_feq a a' b b' : feq a a' -> feq b b' -> fle a b = fle a' b'.
Proof.
  destruct a, a', b, b'; simpl; try tauto; try reflexivity.
  apply Qle_bool_Qeq.
Qed.

Lemma filter_permutation {A : Type} (f : A -> bool) (l l' : list A) :
  Permutation l l' -> Permutation (List.filter f l) (List.filter f l').
Proof.
  induction 1 as [|x l l' _ IH|x y l|l1 l2 l3 _ IH1 _ IH2]; simpl.
  - constructor.
  - destruct (f x); [now constructor | assumption].
  - destruct (f x), (f y); try reflexivity. apply perm_swap.
  - now transitivity (List.filter f l2).
Qed.

Lemma feq_cell_refl (a : float64) : feq a a.
Proof. destruct a; simpl; [reflexivity | exact I]. Qed.

Lemma between_permutation col col' lo lo' hi hi' :
  Permutation col col' -> feq lo lo' -> feq hi hi' ->
  Permutation (between col lo hi) (between col' lo' hi').
Proof.
  intros Hp Hlo Hhi. rewrite !between_filter.
  rewrite (filter_ext (fun v => fge v lo && fle v hi)
                      (fun v => fge v lo' && fle v hi')).
  - now apply filter_permutation.
  - intros v. unfold fge.
    rewrite (fle_feq lo lo' v v Hlo (feq_cell_refl v)).
    rewrite (fle_feq v v hi hi' (feq_cell_refl v) Hhi). reflexivity.
Qed.

Lemma fsub_feq a a' b b' : feq a a' -> feq b b' -> feq (fsub a b) (fsub a' b').
Proof.
  destruct a, a', b, b'; simpl; try tauto. intros Ha Hb. now rewrite Ha, Hb.
Qed.

Lemma fadd_feq a a' b b' : feq a a' -> feq b b' -> feq (fadd a b) (fadd a' b').
Proof.
  destruct a, a', b, b'; simpl; try tauto. intros Ha Hb. now rewrite Ha, Hb.
Qed.

Lemma fmul_feq a a' b b' : feq a a' -> feq b b' -> feq (fmul a b) (fmul a' b').
Proof.
  destruct a, a', b, b'; simpl; try tauto. intros Ha Hb. now rewrite Ha, Hb.
Qed.

Lemma iqr_clean_permutation col col' :
  Permutation col col' -> Permutation (iqr_clean col) (iqr_clean col').
Proof.
  intros Hp. unfold iqr_clean.
  pose proof (quantile_Qeq col col' (1 # 4) (sorted_values_permutation _ _ Hp)) as H1.
  pose proof (quantile_Qeq col col' (3 # 4) (sorted_values_permutation _ _ Hp)) as H3.
  apply between_permutation; [exact Hp | |].
  - apply fsub_feq; [exact H1 |].
    apply fmul_feq; [apply feq_cell_refl | now apply fsub_feq].
  - apply fadd_feq; [exact H3 |].
    apply fmul_feq; [apply feq_cell_refl | now apply fsub_feq].
Qed.

Lemma trimmed_median_permutation col col' :
  Permutation col col' -> feq (trimmed_median col) (trimmed_median col').
Proof.
  intros Hp. unfold trimmed_median.
  apply median_Qeq, sorted_values_permutation, iqr_clean_permutation, Hp.
Qed.

Lemma Qsum_map_ext (f g : Q -> Q) (l : list Q) :
  (forall x, f x == g x) -> Qsum (List.map f l) == Qsum (List.map g l).
Proof.
  intros Hfg. unfold Qsum.
  induction l as [|z l IH]; simpl; [reflexivity | now rewrite IH, Hfg].
Qed.

Lemma Qsum_permutation (l l' : list Q) : Permutation l l' -> Qsum l == Qsum l'.
Proof.
  unfold Qsum. induction 1 as [|x l l' _ IH|x y l|l1 l2 l3 _ IH1 _ IH2]; simpl.
  - reflexivity.
  - now rewrite IH.
  - ring.
  - now rewrite IH1.
Qed.

Lemma np_mean_pointwise (f g : Q -> Q) (l l' : list Q) :
  (forall x, f x == g x) -> Permutation l l' ->
  np_mean (List.map f l) == np_mean (List.map g l').
Proof.
  intros Hfg Hp. unfold np_mean.
  rewrite !length_map, (Permutation_length Hp).
  rewrite (Qsum_map_ext f g l Hfg), (Qsum_permutation _ _ (Permutation_map g Hp)).
  reflexivity.
Qed.

Lemma skew_permutation a a' : Permutation a a' -> skew_eq (skew a) (skew a').
Proof.
  intros Hp. unfold skew.
  destruct a as [|x a].
  { apply Permutation_nil in Hp. subst. exact I. }
  destruct a' as [|x' a'].
  { symmetry in Hp. apply Permutation_nil in Hp. discriminate. }
  set (l := x :: a) in *. set (l' := x' :: a') in *.
  assert (Hmean : np_mean l == np_mean l').
  { pose proof (np_mean_pointwise (fun v => v) (fun v => v) l l'
                  (fun v => Qeq_refl v) Hp) as H.
    now rewrite !List.map_id in H. }
  assert (Hmom : forall k, moment k l (np_mean l) == moment k l' (np_mean l')).
  { intros k. unfold moment. apply np_mean_pointwise; [| exact Hp].
    intros v. now rewrite Hmean. }
  rewrite (Qle_bool_Qeq _ (moment 2 l' (np_mean l')) _
             (Qpower_positive (resolution * np_mean l') 2) (Hmom 2%positive)).
  - destruct (Qle_bool _ _); simpl; [exact I | split; apply Hmom].
  - now rewrite Hmean.
Qed.

Lemma filter_material_filter df material :
  filter_material df material =
  match re_compile material with
  | Pattern r =>
      Ret (List.filter (fun x => match Material_description x with
                                 | Some s => re_search r s
                                 | None => false
                                 end) df)
  | ReError msg => Raise (re_error msg)
  | Unsupported => Unmodelled
  end.
Proof.
  unfold filter_material, str_contains.
  destruct (re_compile material); try reflexivity.
  now rewrite List.map_map, getitem_mask_map.
Qed.

Lemma summary_of_permutation mat mat' :
  Permutation mat mat' ->
  same_result (Ret (Some (summary_of mat))) (Ret (Some (summary_of mat'))).
Proof.
  intros Hp. simpl.
  pose proof (Permutation_map Embodied_Energy Hp) as Hee.
  pose proof (Permutation_map Embodied_Carbon Hp) as Hec.
  split; [apply skew_permutation, dropna_permutation, Hee |].
  split; [apply skew_permutation, dropna_permutation, Hec |].
  split; [apply trimmed_median_permutation, Hee |].
  split; [apply trimmed_median_permutation, Hec | exact Hp].
Qed.

(** X15.  The order of the rows of the sheet does not matter: on a sheet
    with the same rows in another order [perform_analysis] raises the same
    error, returns [None] alike, or returns a dictionary with the same
    medians and, the numbers being read as exact, the same skewness, over
    the same matched records. *)
Theorem X15_row_order_is_irrelevant df df' material :
  Permutation df df' ->
  same_result (perform_analysis df material) (perform_analysis df' material).
Proof.
  intros Hp. rewrite !perform_analysis_cases, !filter_material_filter.
  destruct (re_compile material) as [r| |]; [| reflexivity | exact I].
  pose proof (filter_permutation
                (fun x => match Material_description x with
                          | Some s => re_search r s
                          | None => false
                          end) df df' Hp) as Hf.
  destruct (List.filter _ df) as [|x mat] eqn:E.
  - apply Permutation_nil in Hf. rewrite Hf. exact I.
  - destruct (List.filter _ df') as [|x' mat'] eqn:E'.
    + symmetry in Hf. apply Permutation_nil in Hf. discriminate.
    + now apply summary_of_permutation.
Qed.

(** ** A change of unit *)

Section Scaling.
Variable a : Q.
Hypothesis Ha : 0 < a.

Lemma Qle_bool_scale x y : Qle_bool (a * x) (a * y) = Qle_bool x y.
Proof using Ha.
  destruct (Qle_bool x y) eqn:E.
  - apply Qle_bool_iff in E. apply Qle_bool_iff. nra.
  - apply Qle_bool_false in E. destruct (Qle_bool (a * x) (a * y)) eqn:E'; [| reflexivity].
    apply Qle_bool_iff in E'. nra.
Qed.

Lemma insert_sorted_scale x l :
  insert_sorted (a * x) (List.map (Qmult a) l) = List.map (Qmult a) (insert_sorted x l).
Proof using Ha.
  induction l as [|y l IH]; simpl; [reflexivity |].
  rewrite Qle_bool_scale. destruct (Qle_bool x y); simpl; [reflexivity | now rewrite IH].
Qed.

Lemma np_sort_scale l : np_sort (List.map (Qmult a) l) = List.map (Qmult a) (np_sort l).
Proof using Ha.
  induction l as [|x l IH]; [reflexivity |].
  unfold np_sort in *. simpl. now rewrite IH, insert_sorted_scale.
Qed.

Lemma dropna_scale col :
  dropna (List.map (fscale a) col) = List.map (Qmult a) (dropna col).
Proof using Type.
  induction col as [|[v|] col IH]; simpl; [reflexivity | now rewrite IH | exact IH].
Qed.

Lemma percentile_linear_scale vs d q :
  percentile_linear (List.map (Qmult a) vs) (a * d) q == a * percentile_linear vs d q.
Proof using Type.
  unfold percentile_linear. rewrite length_map, !(map_nth (Qmult a)), !lerp_value.
  ring.
Qed.

Lemma quantile_scale col q :
  feq (quantile (List.map (fscale a) col) q) (fscale a (quantile col q)).
Proof using Ha.
  unfold quantile. rewrite dropna_scale, np_sort_scale.
  destruct (np_sort (dropna col)) as [|d t]; simpl; [exact I |].
  apply (percentile_linear_scale (d :: t) d q).
Qed.

Lemma median_scale s :
  feq (median (List.map (fscale a) s)) (fscale a (median s)).
Proof using Ha.
  unfold median. rewrite dropna_scale, np_sort_scale.
  destruct (np_sort (dropna s)) as [|d t]; [exact I |].
  remember (d :: t) as vs eqn:Evs.
  assert (E : List.map (Qmult a) vs = a * d :: List.map (Qmult a) t)
    by (subst vs; reflexivity).
  rewrite E at 1. rewrite <- E. clear E Evs. cbv zeta. rewrite length_map.
  remember (List.length vs) as n eqn:En.
  destruct (Nat.even n); unfold fscale, fmul, feq; rewrite !(map_nth (Qmult a)).
  - field.
  - reflexivity.
Qed.

Lemma fle_scale_l lo lo' v :
  feq lo' (fscale a lo) -> fle lo' (fscale a v) = fle lo v.
Proof using Ha.
  destruct lo as [x|], lo' as [x'|], v as [y|]; simpl; try tauto; try reflexivity.
  intros E. rewrite (Qle_bool_Qeq x' (a * x) (a * y) (a * y) E (Qeq_refl _)).
  apply Qle_bool_scale.
Qed.

Lemma fle_scale_r hi hi' v :
  feq hi' (fscale a hi) -> fle (fscale a v) hi' = fle v hi.
Proof using Ha.
  destruct hi as [x|], hi' as [x'|], v as [y|]; simpl; try tauto; try reflexivity.
  intros E. rewrite (Qle_bool_Qeq (a * y) (a * y) x' (a * x) (Qeq_refl _) E).
  apply Qle_bool_scale.
Qed.

Lemma filter_map_comm {A B : Type} (f : A -> B) (p : B -> bool) (l : list A) :
  List.filter p (List.map f l) = List.map f (List.filter (fun x => p (f x)) l).
Proof.
  induction l as [|x l IH]; simpl; [reflexivity |].
  destruct (p (f x)); simpl; now rewrite IH.
Qed.

Lemma between_scale col lo lo' hi hi' :
  feq lo' (fscale a lo) -> feq hi' (fscale a hi) ->
  between (List.map (fscale a) col) lo' hi' = List.map (fscale a) (between col lo hi).
Proof using Ha.
  intros Hlo Hhi. rewrite !between_filter, filter_map_comm. f_equal.
  apply filter_ext. intros v. unfold fge.
  now rewrite (fle_scale_l lo lo' v Hlo), (fle_scale_r hi hi' v Hhi).
Qed.

Lemma iqr_clean_scale col :
  iqr_clean (List.map (fscale a) col) = List.map (fscale a) (iqr_clean col).
Proof using Ha.
  unfold iqr_clean.
  pose proof (quantile_scale col (1 # 4)) as H1.
  pose proof (quantile_scale col (3 # 4)) as H3.
  destruct (quantile col (1 # 4)) as [q1|], (quantile col (3 # 4)) as [q3|],
    (quantile (List.map (fscale a) col) (1 # 4)) as [q1'|],
    (quantile (List.map (fscale a) col) (3 # 4)) as [q3'|];
    simpl in H1, H3; try contradiction;
    apply between_scale; simpl; try exact I.
  - rewrite H1, H3. ring.
  - rewrite H1, H3. ring.
Qed.

Lemma trimmed_median_scale col :
  feq (trimmed_median (List.map (fscale a) col)) (fscale a (trimmed_median col)).
Proof using Ha.
  unfold trimmed_median. rewrite iqr_clean_scale. apply median_scale.
Qed.

Lemma np_mean_scale l : np_mean (List.map (Qmult a) l) == a * np_mean l.
Proof using Ha.
  unfold np_mean. rewrite length_map.
  assert (E : Qsum (List.map (Qmult a) l) == a * Qsum l).
  { unfold Qsum. induction l as [|x l IH]; simpl; [ring | rewrite IH; ring]. }
  rewrite E. destruct l as [|x l].
  - unfold Qdiv. simpl. ring.
  - field. intros H. unfold Qeq, inject_Z in H. simpl Qnum in H. simpl Qden in H.
    simpl List.length in H. lia.
Qed.

Lemma moment_scale (k : positive) (factor : Q) l :
  (forall x m, Qpower_positive (a * x - a * m) k == factor * Qpower_positive (x - m) k) ->
  moment k (List.map (Qmult a) l) (np_mean (List.map (Qmult a) l)) ==
  factor * moment k l (np_mean l).
Proof using Ha.
  intros Hk. unfold moment. rewrite List.map_map.
  rewrite (np_mean_pointwise
             (fun x => Qpower_positive (a * x - np_mean (List.map (Qmult a) l)) k)
             (fun x => factor * Qpower_positive (x - np_mean l) k) l l).
  - unfold np_mean at 1 3. rewrite !length_map.
    assert (E : forall f, Qsum (List.map (fun x => factor * f x) l) ==
                          factor * Qsum (List.map f l)).
    { intros f. unfold Qsum.
      induction l as [|x t IH]; simpl; [ring | rewrite IH; ring]. }
    rewrite E. unfold Qdiv. ring.
  - intros x. rewrite <- Hk, np_mean_scale. reflexivity.
  - reflexivity.
Qed.

Lemma skew_scale l : skew_scaled a (skew l) (skew (List.map (Qmult a) l)).
Proof using Ha.
  destruct l as [|x l]; [exact I |].
  set (vs := x :: l). unfold skew.
  change (List.map (Qmult a) vs) with (a * x :: List.map (Qmult a) l).
  cbv zeta.
  change (a * x :: List.map (Qmult a) l) with (List.map (Qmult a) vs).
  assert (H2 : moment 2 (List.map (Qmult a) vs) (np_mean (List.map (Qmult a) vs)) ==
               a * a * moment 2 vs (np_mean vs)).
  { apply moment_scale. intros y m. simpl. ring. }
  assert (H3 : moment 3 (List.map (Qmult a) vs) (np_mean (List.map (Qmult a) vs)) ==
               a * a * a * moment 3 vs (np_mean vs)).
  { apply moment_scale. intros y m. simpl. ring. }
  assert (Hb : Qpower_positive (resolution * np_mean (List.map (Qmult a) vs)) 2 ==
               a * a * Qpower_positive (resolution * np_mean vs) 2).
  { rewrite np_mean_scale. simpl. ring. }
  set (m2 := moment 2 vs (np_mean vs)) in *.
  set (b := Qpower_positive (resolution * np_mean vs) 2) in *.
  assert (E : Qle_bool (moment 2 (List.map (Qmult a) vs) (np_mean (List.map (Qmult a) vs)))
                (Qpower_positive (resolution * np_mean (List.map (Qmult a) vs)) 2) =
              Qle_bool m2 b).
  { rewrite (Qle_bool_Qeq _ (a * a * m2) _ (a * a * b) H2 Hb).
    clearbody m2 b. assert (Hk : 0 < a * a) by nra.
    set (k := a * a) in *. clearbody k.
    destruct (Qle_bool m2 b) eqn:E.
    - apply Qle_bool_iff in E. apply Qle_bool_iff. nra.
    - apply Qle_bool_false in E.
      destruct (Qle_bool (k * m2) (k * b)) eqn:E'; [| reflexivity].
      apply Qle_bool_iff in E'. nra. }
  rewrite E. destruct (Qle_bool m2 b); simpl; [exact I | split; assumption].
Qed.

End Scaling.

Lemma summary_of_rescale a c mat :
  0 < a -> 0 < c ->
  rescaled_result a c (Ret (Some (summary_of mat)))
                      (Ret (Some (summary_of (List.map (rescale a c) mat)))).
Proof.
  intros Ha Hc. simpl.
  assert (Eee : List.map Embodied_Energy (List.map (rescale a c) mat) =
                List.map (fscale a) (List.map Embodied_Energy mat))
    by (rewrite !List.map_map; reflexivity).
  assert (Eec : List.map Embodied_Carbon (List.map (rescale a c) mat) =
                List.map (fscale c) (List.map Embodied_Carbon mat))
    by (rewrite !List.map_map; reflexivity).
  rewrite Eee, Eec, !dropna_scale.
  split; [now apply skew_scale |]. split; [now apply skew_scale |].
  split; [now apply trimmed_median_scale |].
  split; [now apply trimmed_median_scale | reflexivity].
Qed.


(** ** The properties above at sample inputs *)


(** X5 applied to the sample sheet and three materials, of which one
    selects nothing. *)
Lemma X5_witness :
  exists analysis_results,
    analyse_all sheet materials = Ret analysis_results /\
    (forall m s, analysis_results !! m = Some s <->
                 m ∈ materials /\ perform_analysis sheet m = Ret (Some s)).
Proof.
  destruct (analyse_all sheet materials) as [r| |] eqn:E.
  - exists r. split; [reflexivity |].
    exact (proj1 (X5_analysis_results_content sheet materials r E)).
  - exfalso. vm_compute in E. discriminate E.
  - exfalso. vm_compute in E. discriminate E.
Defined.

(** X7 applied to the three materials in another order, one of them
    twice. *)
Lemma X7_witness :
  exists analysis_results,
    analyse_all sheet materials = Ret analysis_results /\
    analyse_all sheet ["concrete"; "granite"; "vitrified"; "granite"]%string =
      Ret analysis_results.
Proof.
  assert (Hsame : forall m, m ∈ materials <->
                   m ∈ ["concrete"; "granite"; "vitrified"; "granite"]%string).
  { intros m. unfold materials. rewrite !elem_of_cons, !elem_of_nil. tauto. }
  destruct (analyse_all sheet materials) as [r| |] eqn:E.
  - exists r. split; [reflexivity |].
    exact (X7_results_independent_of_order sheet materials _ r Hsame E).
  - exfalso. vm_compute in E. discriminate E.
  - exfalso. vm_compute in E. discriminate E.
Defined.

(** X8 applied to the sample sheet, with vitrified mapped to granite. *)
Lemma X8_witness :
  exists rows,
    analyze_data sheet materials on_granite materials = Ret rows /\
    List.map Primary rows =
      List.filter (fun p => bool_decide (is_Some (stored sheet p))) materials /\
    Forall (row_from_sheet sheet on_granite) rows.
Proof.
  assert (Hsec : forall p sec, on_granite !! p = Some sec -> sec ∈ materials).
  { intros p sec H. unfold on_granite in H.
    apply lookup_singleton_Some in H. destruct H as [_ <-].
    unfold materials. rewrite !elem_of_cons. tauto. }
  destruct (analyze_data sheet materials on_granite materials) as [rows| |] eqn:E.
  - exists rows. split; [reflexivity |].
    exact (X8_rows_from_the_sheet sheet materials on_granite materials rows E
             (fun p H => H) Hsec).
  - exfalso. vm_compute in E. discriminate E.
  - exfalso. vm_compute in E. discriminate E.
Defined.

(** X9 applied to the sample sheet, whose last row has no description. *)
Lemma X9_witness :
  exists mat_df,
    filter_material sheet "." = Ret mat_df /\
    sublist mat_df sheet /\
    Forall (fun r => is_Some (Material_description r)) mat_df.
Proof.
  destruct (filter_material sheet ".") as [mat| |] eqn:E.
  - exists mat. split; [reflexivity |]. exact (X9_selected_records sheet "." mat E).
  - exfalso. vm_compute in E. discriminate E.
  - exfalso. vm_compute in E. discriminate E.
Defined.


(** X11 applied to a name in capitals. *)
Lemma X11_witness :
  eq_ic "Vitrified" "VITRIFIED" = true /\
  perform_analysis tiles "Vitrified" = perform_analysis tiles "VITRIFIED".
Proof.
  split; [reflexivity |].
  exact (proj2 (X11_case_of_material_is_ignored tiles "Vitrified" "VITRIFIED"
                  eq_refl eq_refl eq_refl)).
Defined.

(** X12 applied to the six tiles, whose median is 11. *)
Lemma X12_witness :
  perform_analysis tiles "vitrified" = Ret (Some (summary_of tiles)) /\
  inside_data_and_window (List.map Embodied_Energy tiles) 11.
Proof.
  assert (H : perform_analysis tiles "vitrified" = Ret (Some (summary_of tiles)))
    by (vm_compute; reflexivity).
  split; [exact H |].
  apply (proj1 (X12_median_inside_data tiles "vitrified" _ H)).
  vm_compute. reflexivity.
Defined.


(** X14 applied to the sample table, whose Combined EE values differ. *)
Lemma X14_witness :
  no_ties (dropna (List.map (column EE) table)) /\
  forall order,
    is_argsort (dropna (List.map (column EE) table)) order ->
    order = [1%nat; 0%nat].
Proof.
  assert (Hties : no_ties (dropna (List.map (column EE) table))).
  { intros i j Hi Hj Hne. simpl in Hi, Hj.
    destruct i as [|[|i]], j as [|[|j]]; try lia; simpl; discriminate. }
  assert (H : is_argsort (dropna (List.map (column EE) table)) [1%nat; 0%nat]).
  { split; [apply perm_swap |]. simpl. repeat constructor. discriminate. }
  split; [exact Hties |].
  intros order Ho.
  exact (proj1 (X14_sort_determined_without_ties EE table order _ Hties Ho H)).
Defined.

(** X15 applied to two tiles and the same two in the other order. *)
Lemma X15_witness :
  Permutation two_tiles two_tiles_swapped /\
  same_result (perform_analysis two_tiles "vitrified")
              (perform_analysis two_tiles_swapped "vitrified").
Proof.
  assert (H : Permutation two_tiles two_tiles_swapped) by apply perm_swap.
  split; [exact H |].
  exact (X15_row_order_is_irrelevant two_tiles two_tiles_swapped "vitrified" H).
Defined.

